(** * Content-addressed chunked blob upload: the StorageClient module

    A shallow embedding of the upload core of the repository (the file that
    declares [YHash], [BlobHashTree], [StorageGatewayClient] and
    [StorageClient]) together with the properties its specification states.

    Conventions of the embedding:
    - a [Uint8Array] is a [list byte];
    - a JavaScript string is a [string] of 8-bit code units (the strings the
      module produces are ASCII; of the line terminators and white space of
      ECMAScript only those below U+0100 therefore occur);
    - integral JavaScript numbers (sizes, indices, counters) are [Z] or [nat];
      the one expression that leaves the integers, the progress percentage,
      is computed in IEEE 754 binary64 ([spec_float] of the standard
      library);
    - a rejected promise or a thrown exception is [Threw]; the collaborators
      the module does not implement (WebCrypto, [fetch], the registry actor)
      are fields of a [World];
    - the ten concurrently running workers of [parallelUpload] are a
      transition system whose steps are the resumptions of one worker. *)

From Stdlib Require Import ZArith Lia ZifyNat Ascii String Floats.SpecFloat.
From Stdlib Require Import Init.Byte.
From Stdlib Require Strings.Byte.
From stdpp Require Import base tactics option list strings.

Local Open Scope Z_scope.
Set Warnings "-register-all".

(** ** Errors and outcomes *)

(** The [throw] sites of the module, one constructor each, and [Rejected]
    for a promise rejected by a collaborator. *)
Inductive error : Type :=
  | YHashLength (got : nat)
  | NullDereference
  | ToStringNotSupported
  | EmptyChunks
  | PathRequired
  | PathMustNotBeEmpty
  | ChunkUploadFailed (index : nat) (status : Z) (statusText body : string)
  | BlobTreeUploadFailed (status : Z) (statusText body : string)
  | Rejected (reason : string).

(** What running a piece of code gives: a value, an exception, or no answer
    within the fuel a loop was given. *)
Inductive outcome (A : Type) : Type :=
  | Returned (a : A)
  | Threw (e : error)
  | OutOfFuel.
Arguments Returned {A} a.
Arguments Threw {A} e.
Arguments OutOfFuel {A}.

#[global] Instance outcome_ret : MRet outcome := fun A a => Returned a.
#[global] Instance outcome_bind : MBind outcome := fun A B f m =>
  match m with
  | Returned a => f a
  | Threw e => Threw e
  | OutOfFuel => OutOfFuel
  end.


(** ** Bytes and JavaScript string primitives *)

Definition byte_to_Z (b : byte) : Z := Z.of_N (Byte.to_N b).

(** ToUint8 of an integer: reduction modulo 256. *)
Definition byte_of_Z (z : Z) : byte :=
  default x00 (Byte.of_N (Z.to_N (z mod 256))).

Definition hex_digit (n : Z) : ascii :=
  if n <? 10 then ascii_of_N (Z.to_N (48 + n)) else ascii_of_N (Z.to_N (87 + n)).

(** [b.toString(16)] for a byte: lowercase, no leading zero. *)
Definition toString16 (b : byte) : string :=
  let n := byte_to_Z b in
  if n <? 16 then String (hex_digit n) EmptyString
  else String (hex_digit (n / 16)) (String (hex_digit (n mod 16)) EmptyString).

(** [s.padStart(2, '0')]. *)
Definition padStart2 (s : string) : string :=
  match s with
  | EmptyString => "00"
  | String c EmptyString => String "0" (String c EmptyString)
  | _ => s
  end.

Fixpoint drop_chars (n : nat) (s : string) : string :=
  match n, s with
  | S n', String _ s' => drop_chars n' s'
  | _, _ => s
  end.

(** [s.replace(pat, rep)] with a string pattern: the first occurrence only. *)
Fixpoint replace_first (pat rep s : string) : string :=
  if String.prefix pat s then rep +:+ drop_chars (String.length pat) s
  else match s with
       | EmptyString => s
       | String c s' => String c (replace_first pat rep s')
       end.

(** Line terminators: what [.] of a regular expression does not match. *)
Definition is_line_terminator (c : ascii) : bool :=
  let n := N_of_ascii c in ((n =? 10) || (n =? 13))%N.

(** The matches of [/.{1,2}/g], left to right: two characters when both can
    be matched, one when the next is a terminator or the end; a terminator
    at the start of an attempt is stepped over. *)
Fixpoint match_pairs (s : string) : list string :=
  match s with
  | EmptyString => []
  | String c1 rest =>
      if is_line_terminator c1 then match_pairs rest
      else match rest with
           | EmptyString => [String c1 EmptyString]
           | String c2 rest' =>
               if is_line_terminator c2 then String c1 EmptyString :: match_pairs rest'
               else String c1 (String c2 EmptyString) :: match_pairs rest'
           end
  end.

(** [s.match(/.{1,2}/g)]: [null] when nothing matches. *)
Definition match_all (s : string) : option (list string) :=
  match match_pairs s with
  | [] => None
  | groups => Some groups
  end.

(** StrWhiteSpaceChar below U+0100: TAB, LF, VT, FF, CR, SP, NBSP. *)
Definition is_white_space (c : ascii) : bool :=
  let n := N_of_ascii c in
  (((9 <=? n) && (n <=? 13)) || (n =? 32) || (n =? 160))%N.

Fixpoint trim_start (s : string) : string :=
  match s with
  | String c s' => if is_white_space c then trim_start s' else s
  | EmptyString => s
  end.

Definition hex_value (c : ascii) : option Z :=
  let n := Z.of_N (N_of_ascii c) in
  if (48 <=? n) && (n <=? 57) then Some (n - 48)
  else if (97 <=? n) && (n <=? 102) then Some (n - 87)
  else if (65 <=? n) && (n <=? 70) then Some (n - 55)
  else None.

(** The value of the longest prefix of radix-16 digits; [acc] is [None]
    until a digit has been read. *)
Fixpoint hex_prefix_value (acc : option Z) (s : string) : option Z :=
  match s with
  | String c s' =>
      match hex_value c with
      | Some d => hex_prefix_value (Some (16 * default 0 acc + d)) s'
      | None => acc
      end
  | EmptyString => acc
  end.

(** [parseInt(s, 16)], with [None] for NaN: leading white space, a sign, an
    optional [0x] or [0X], then the digits. Exact on the groups of at most
    two characters it is applied to. *)
Definition parseInt16 (s : string) : option Z :=
  let s1 := trim_start s in
  let '(sign, s2) :=
    match s1 with
    | String "-" r => (-1, r)
    | String "+" r => (1, r)
    | _ => (1, s1)
    end in
  let s3 :=
    match s2 with
    | String "0" (String "x" r) => r
    | String "0" (String "X" r) => r
    | _ => s2
    end in
  Z.mul sign <$> hex_prefix_value None s3.

(** An element stored into a [Uint8Array]: NaN becomes 0, an integer is
    taken modulo 256. *)
Definition to_uint8 (v : option Z) : byte :=
  match v with
  | None => x00
  | Some z => byte_of_Z z
  end.

(** ** YHash *)

Record YHash : Type := { bytes : list byte }.

(** [new YHash(bytes)]. *)
Definition new_YHash (bs : list byte) : outcome YHash :=
  if decide (length bs = 32%nat) then Returned {| bytes := bs |}
  else Threw (YHashLength (length bs)).

Definition toHex (h : YHash) : string :=
  String.concat "" ((λ b, padStart2 (toString16 b)) <$> bytes h).

Definition toShaString (h : YHash) : string := "sha256:" +:+ toHex h.

Definition toString (h : YHash) : outcome string := Threw ToStringNotSupported.

Definition fromHex (hexString : string) : outcome YHash :=
  match match_all hexString with
  | None => Threw NullDereference
  | Some groups => new_YHash ((λ g, to_uint8 (parseInt16 g)) <$> groups)
  end.

Definition fromShaString (hash : string) : outcome YHash :=
  fromHex (replace_first "sha256:" "" hash).

(** ** SHA-256 (FIPS 180-4)

    The digest WebCrypto computes for ['SHA-256'], written out so that the
    module can be run on concrete inputs. Words are integers below [2^32]. *)
Module SHA256.

Definition add32 (x y : Z) : Z := (x + y) mod 2 ^ 32.

Definition rotr (n x : Z) : Z :=
  Z.lor (Z.shiftr x n) (Z.shiftl x (32 - n) mod 2 ^ 32).

Definition ch (x y z : Z) : Z :=
  Z.lxor (Z.land x y) (Z.land (Z.lxor x (2 ^ 32 - 1)) z).

Definition maj (x y z : Z) : Z :=
  Z.lxor (Z.lxor (Z.land x y) (Z.land x z)) (Z.land y z).

Definition big_sigma0 (x : Z) : Z :=
  Z.lxor (Z.lxor (rotr 2 x) (rotr 13 x)) (rotr 22 x).

Definition big_sigma1 (x : Z) : Z :=
  Z.lxor (Z.lxor (rotr 6 x) (rotr 11 x)) (rotr 25 x).

Definition small_sigma0 (x : Z) : Z :=
  Z.lxor (Z.lxor (rotr 7 x) (rotr 18 x)) (Z.shiftr x 3).

Definition small_sigma1 (x : Z) : Z :=
  Z.lxor (Z.lxor (rotr 17 x) (rotr 19 x)) (Z.shiftr x 10).

Definition is_prime (p : Z) : bool :=
  forallb (λ d, negb (p mod d =? 0)) (seqZ 2 (p - 2)).

(** The first sixty-four primes. *)
Definition primes : list Z :=
  Eval vm_compute in filter (λ p, is_prime p = true) (seqZ 2 310).

(** The integer cube root, one bit at a time from bit [bits - 1] down. *)
Fixpoint cube_root (bits : nat) (n r : Z) : Z :=
  match bits with
  | O => r
  | S b =>
      let r' := r + 2 ^ Z.of_nat b in
      if r' * r' * r' <=? n then cube_root b n r' else cube_root b n r
  end.

(** The round constants: the first 32 bits of the fractional parts of the
    cube roots of the primes. *)
Definition K : list Z :=
  Eval vm_compute in (λ p, cube_root 40 (p * 2 ^ 96) 0 mod 2 ^ 32) <$> primes.

Definition state : Type := Z * Z * Z * Z * Z * Z * Z * Z.

(** The initial hash value: the first 32 bits of the fractional parts of
    the square roots of the first eight primes. *)
Definition H0 : state :=
  Eval vm_compute in
    let h i := Z.sqrt (nth i primes 0 * 2 ^ 64) mod 2 ^ 32 in
    (h 0%nat, h 1%nat, h 2%nat, h 3%nat, h 4%nat, h 5%nat, h 6%nat, h 7%nat).

(** Padding: the bit 1, zeros up to 56 modulo 64 bytes, the length in bits
    as a 64-bit big-endian integer. *)
Definition be_bytes (count : nat) (v : Z) : list byte :=
  (λ k, byte_of_Z (Z.shiftr v (8 * Z.of_nat k))) <$> rev (seq 0 count).

Definition pad (msg : list byte) : list byte :=
  let len := Z.of_nat (length msg) in
  msg ++ [x80] ++ replicate (Z.to_nat ((55 - len) mod 64)) x00 ++ be_bytes 8 (8 * len).

Definition be_word (bs : list byte) : Z :=
  foldl (λ acc b, acc * 256 + byte_to_Z b) 0 bs.

Fixpoint chunks_of (size fuel : nat) (bs : list byte) : list (list byte) :=
  match fuel, bs with
  | S fuel', _ :: _ => take size bs :: chunks_of size fuel' (drop size bs)
  | _, _ => []
  end.

(** The message schedule of one block, the sixteen words of the block
    first. *)
Fixpoint extend (count : nat) (w : list Z) : list Z :=
  match count with
  | O => w
  | S count' =>
      let t := length w in
      let at_ k := nth (t - k) w 0 in
      extend count'
        (w ++ [add32 (add32 (add32 (small_sigma1 (at_ 2%nat)) (at_ 7%nat))
                       (small_sigma0 (at_ 15%nat))) (at_ 16%nat)])
  end.

Definition schedule (block : list byte) : list Z :=
  extend 48 (be_word <$> chunks_of 4 16 block).

Definition round (s : state) (kw : Z * Z) : state :=
  let '(a, b, c, d, e, f, g, h) := s in
  let t1 := add32 (add32 (add32 (add32 h (big_sigma1 e)) (ch e f g)) kw.1) kw.2 in
  let t2 := add32 (big_sigma0 a) (maj a b c) in
  (add32 t1 t2, a, b, c, add32 d t1, e, f, g).

Definition compress (H : state) (block : list byte) : state :=
  let '(a, b, c, d, e, f, g, h) := foldl round H (zip K (schedule block)) in
  let '(h0, h1, h2, h3, h4, h5, h6, h7) := H in
  (add32 h0 a, add32 h1 b, add32 h2 c, add32 h3 d,
   add32 h4 e, add32 h5 f, add32 h6 g, add32 h7 h).

Definition sha256 (msg : list byte) : list byte :=
  let padded := pad msg in
  let '(h0, h1, h2, h3, h4, h5, h6, h7) :=
    foldl compress H0 (chunks_of 64 (length padded) padded) in
  be_bytes 4 h0 ++ be_bytes 4 h1 ++ be_bytes 4 h2 ++ be_bytes 4 h3 ++
  be_bytes 4 h4 ++ be_bytes 4 h5 ++ be_bytes 4 h6 ++ be_bytes 4 h7.

End SHA256.

(** [new TextEncoder().encode(s)] for an ASCII string. *)
Definition TextEncoder_encode (s : string) : list byte :=
  (λ c, byte_of_Z (Z.of_N (N_of_ascii c))) <$> list_ascii_of_string s.

(** ** The hash tree *)

Inductive TreeNode : Type :=
  Build_TreeNode { hash : YHash; left : option TreeNode; right : option TreeNode }.

Inductive TreeNodeJSON : Type :=
  Build_TreeNodeJSON {
    json_hash : string;
    json_left : option TreeNodeJSON;
    json_right : option TreeNodeJSON }.

Fixpoint nodeToJSON (node : TreeNode) : TreeNodeJSON :=
  match node with
  | Build_TreeNode h l r =>
      {| json_hash := toShaString h;
         json_left := match l with Some n => Some (nodeToJSON n) | None => None end;
         json_right := match r with Some n => Some (nodeToJSON n) | None => None end |}
  end.

Record BlobHashTreeJSON : Type := {
  json_tree_type : string;
  json_chunk_hashes : list string;
  json_tree : TreeNodeJSON }.

Record BlobHashTree : Type := {
  tree_type : string;
  chunk_hashes : list YHash;
  tree : TreeNode }.

Definition toJSON (t : BlobHashTree) : BlobHashTreeJSON :=
  {| json_tree_type := tree_type t;
     json_chunk_hashes := toShaString <$> chunk_hashes t;
     json_tree := nodeToJSON (tree t) |}.

(** The height of a tree: the number of edges from the root down to the
    farthest leaf. *)
Fixpoint height (node : TreeNode) : nat :=
  match node with
  | Build_TreeNode _ None None => 0
  | Build_TreeNode _ l r =>
      S (max (match l with Some n => height n | None => 0 end)
             (match r with Some n => height n | None => 0 end))
  end.

Definition leaf (h : YHash) : TreeNode :=
  {| hash := h; left := None; right := None |}.

Section Digest.

(** [crypto.subtle.digest('SHA-256', data)]: a promise of the hash buffer. *)
Variable subtle_digest : list byte → outcome (list byte).

Definition fromBytes (data : list byte) : outcome YHash :=
  hashBuffer ← subtle_digest data;
  new_YHash hashBuffer.

(** One pass of the [for] loop of [build]: the nodes of [level] two by
    two, the last one alone when their number is odd. *)
Fixpoint nextLevel (level : list TreeNode) : outcome (list TreeNode) :=
  match level with
  | [] => Returned []
  | [l] =>
      parentHash ← fromBytes (bytes (hash l) ++ TextEncoder_encode "UNBALANCED");
      Returned [{| hash := parentHash; left := Some l; right := None |}]
  | l :: r :: rest =>
      parentHash ← fromBytes (bytes (hash l) ++ bytes (hash r));
      parents ← nextLevel rest;
      Returned ({| hash := parentHash; left := Some l; right := Some r |} :: parents)
  end.

(** [while (level.length > 1)]. *)
Fixpoint while_level (fuel : nat) (level : list TreeNode) : outcome (list TreeNode) :=
  if decide (1 < length level)%nat then
    match fuel with
    | O => OutOfFuel
    | S fuel' => next ← nextLevel level; while_level fuel' next
    end
  else Returned level.

(** [BlobHashTree.build]. The loop runs fewer times than there are chunk
    hashes; [level[0]] of an empty level, which no run reaches, is the
    dereference of [undefined]. *)
Definition build (chunkHashes : list YHash) : outcome BlobHashTree :=
  if decide (length chunkHashes = 0%nat) then Threw EmptyChunks
  else
    level ← while_level (length chunkHashes) (leaf <$> chunkHashes);
    match level with
    | rootNode :: _ =>
        Returned {| tree_type := "BMT"; chunk_hashes := chunkHashes; tree := rootNode |}
    | [] => Threw NullDereference
    end.

End Digest.

(** ** Files and chunks *)

(** A [Blob] is its bytes; a [File] is a [Blob]. *)
Definition Blob : Type := list byte.

Definition size (file : Blob) : Z := Z.of_nat (length file).

(** [blob.slice(start, end)]: negative positions count from the end, both
    are clamped to the blob. *)
Definition slice (file : Blob) (start end_ : Z) : Blob :=
  let clamp p := if p <? 0 then Z.max (size file + p) 0 else Z.min p (size file) in
  let s := clamp start in
  let span := Z.max (clamp end_ - s) 0 in
  take (Z.to_nat span) (drop (Z.to_nat s) file).

(** [Math.ceil(a / b)] for integers [0 <= a < 2^53] and [0 < b]. The
    binary64 quotient of two such integers is an integer only when the exact
    quotient is one (a fraction [r / b] above an integer [q] with
    [q * b < 2^53] is more than half a unit in the last place of [q]), so
    its ceiling is the ceiling of the exact quotient. *)
Definition Math_ceil_div (a b : Z) : Z := (a + b - 1) / b.

(** The byte range of the chunk [index]. *)
Definition chunk_range (fileSize chunkSize index : Z) : Z * Z :=
  let start := index * chunkSize in
  (start, Z.min (start + chunkSize) fileSize).

(** [createFileChunks(file, chunkSize)], for [0 < chunkSize]. *)
Definition createFileChunks (file : Blob) (chunkSize : Z) : list Blob :=
  let totalChunks := Math_ceil_div (size file) chunkSize in
  (λ index, let '(start, end_) := chunk_range (size file) chunkSize index in
            slice file start end_) <$> seqZ 0 totalChunks.

Definition defaultChunkSize : Z := 1024 * 1024.

(** ** Numbers: IEEE 754 binary64 *)

Definition number : Type := spec_float.

Definition number_of_Z (z : Z) : number := binary_normalize 53 1024 z 0 false.

Definition number_div : number → number → number := SFdiv 53 1024.
Definition number_mul : number → number → number := SFmul 53 1024.

(** [Math.round]: the nearest integer, a tie going up; [-0] for a negative
    argument that rounds to zero. *)
Definition Math_round (x : number) : number :=
  match x with
  | S754_finite s m e =>
      let v := if s then Z.neg m else Z.pos m in
      let r := if 0 <=? e then v * 2 ^ e else (2 * v + 2 ^ (- e)) / 2 ^ (1 - e) in
      if r =? 0 then S754_zero s else number_of_Z r
  | _ => x
  end.

(** [chunks.length == 0 ? 100 : Math.round((currentCompleted / chunks.length) * 100)]. *)
Definition percentage (currentCompleted total : nat) : number :=
  if decide (total = 0%nat) then number_of_Z 100
  else Math_round (number_mul (number_div (number_of_Z (Z.of_nat currentCompleted))
                                          (number_of_Z (Z.of_nat total)))
                              (number_of_Z 100)).

(** ** The collaborators *)

(** What [fetch] gives the gateway client: a rejection (of [fetch] or of
    reading the body), a response that is not [ok], or an [ok] response
    whose JSON body carries [status]. *)
Inductive reply : Type :=
  | FetchRejected (reason : string)
  | NotOk (status : Z) (statusText errorText : string)
  | Ok (status : string).

(** The two places where a chunk is read. *)
Inductive phase : Type := Hashing | Uploading.

Record FileReference : Type := { ref_path : string; ref_hash : string }.

(** Within one upload every request is made at most once, so an answer that
    is a function of the request covers a gateway with a state of its own. *)
Record World : Type := {
  subtle_digest : list byte → outcome (list byte);
  read_fails : phase → nat → option string;
  put_blob_tree : BlobHashTreeJSON → string → Z → string → reply;
  put_chunk : nat → reply;
  registerFileReference : string → string → outcome unit;
  getFileReference : string → outcome FileReference;
  encodeURIComponent : string → string }.

(** [chunks[index].arrayBuffer()]. *)
Definition arrayBuffer (W : World) (ph : phase) (index : nat) (chunk : Blob)
    : outcome (list byte) :=
  match read_fails W ph index with
  | Some reason => Threw (Rejected reason)
  | None => Returned chunk
  end.

(** What an upload does that can be observed from outside, in the order in
    which it happens. *)
Inductive event : Type :=
  | EvBuild (chunkHashes : list YHash)
  | EvPutBlobTree (blob_tree : BlobHashTreeJSON) (bucket_name : string)
      (num_blob_bytes : Z) (owner : string)
  | EvPutChunk (blob_hash chunk_hash : string) (chunk_index : nat)
      (chunk_data : list byte) (bucket_name owner : string)
  | EvChunkStored (chunk_index : nat)
  | EvChunkFailed (chunk_index : nat) (e : error)
  | EvProgress (percent : number)
  | EvRegister (path hash : string)
  | EvGetFileReference (path : string).

(** A computation with its events. *)
Definition action (A : Type) : Type := list event * outcome A.

#[global] Instance action_ret : MRet action := λ A a, ([], Returned a).
#[global] Instance action_bind : MBind action := λ A B f m,
  match m with
  | (l, Returned a) => let '(l', r) := f a in (l ++ l', r)
  | (l, Threw e) => (l, Threw e)
  | (l, OutOfFuel) => (l, OutOfFuel)
  end.

Definition emit (e : event) : action unit := ([e], Returned tt).
Definition silently {A} (m : outcome A) : action A := ([], m).

(** ** StorageGatewayClient *)

Record StorageClient : Type := {
  bucket : string;
  storageGatewayUrl : string;
  owner : string }.

(** [uploadChunk], once the request has been sent. *)
Definition uploadChunk (W : World) (chunkIndex : nat) : outcome bool :=
  match put_chunk W chunkIndex with
  | FetchRejected reason => Threw (Rejected reason)
  | NotOk status statusText errorText =>
      Threw (ChunkUploadFailed chunkIndex status statusText errorText)
  | Ok status => Returned (bool_decide (status = "blob_complete"))
  end.

Definition uploadBlobTree (W : World) (blobHashTree : BlobHashTree)
    (bucketName : string) (numBlobBytes : Z) (owner : string) : action unit :=
  emit (EvPutBlobTree (toJSON blobHashTree) bucketName numBlobBytes owner);;
  silently
    match put_blob_tree W (toJSON blobHashTree) bucketName numBlobBytes owner with
    | FetchRejected reason => Threw (Rejected reason)
    | NotOk status statusText errorText =>
        Threw (BlobTreeUploadFailed status statusText errorText)
    | Ok _ => Returned tt
    end.

(** ** parallelUpload *)

Definition MAXIMUM_CONCURRENT_UPLOADS : nat := 10.

(** The indices the [for] loop of a worker visits from [i] on. *)
Fixpoint stride (fuel total i : nat) : list nat :=
  match fuel with
  | O => []
  | S fuel' =>
      if decide (i < total)%nat
      then i :: stride fuel' total (i + MAXIMUM_CONCURRENT_UPLOADS)
      else []
  end.

Definition worker_indices (total workerId : nat) : list nat :=
  stride total total workerId.

(** Where a worker is suspended: in [arrayBuffer()] of the chunk [index],
    in [uploadChunk] of the chunk [index], or not at all, its promise being
    resolved or rejected. *)
Inductive worker : Type :=
  | AwaitRead (index : nat)
  | AwaitReply (index : nat)
  | Resolved
  | RejectedWith (e : error).

(** The workers, the counter they share, the rejection [Promise.all] has
    passed on (the first one), and the events so far. *)
Record pool : Type := {
  workers : list worker;
  completedChunks : nat;
  rejection : option error;
  log : list event }.

Section ParallelUpload.

Variable W : World.
Variable client : StorageClient.
Variable chunks : list Blob.
Variable chunkHashes : list YHash.
Variable blobRootHash : YHash.
(** Whether a progress callback was passed; a callback records its
    argument. *)
Variable onProgress : bool.

Definition start_worker (i : nat) : worker :=
  if decide (i < length chunks)%nat then AwaitRead i else Resolved.

Definition pool_init : pool :=
  {| workers := start_worker <$> seq 0 MAXIMUM_CONCURRENT_UPLOADS;
     completedChunks := 0;
     rejection := None;
     log := [] |}.

(** [uploadSingleChunk(index)] throws [e] in the worker [w]. *)
Definition reject (w index : nat) (e : error) (p : pool) : pool :=
  {| workers := <[w := RejectedWith e]> (workers p);
     completedChunks := completedChunks p;
     rejection := Some (default e (rejection p));
     log := log p ++ [EvChunkFailed index e] |}.

(** The worker [w] is resumed and runs to its next [await]. [None] when
    it is not suspended. *)
Definition pool_step (w : nat) (p : pool) : option pool :=
  match workers p !! w with
  | Some (AwaitRead index) =>
      match chunks !! index with
      | None => Some (reject w index NullDereference p)
      | Some chunk =>
          match arrayBuffer W Uploading index chunk with
          | Returned chunkData =>
              match chunkHashes !! index with
              | None => Some (reject w index NullDereference p)
              | Some chunkHash =>
                  Some {| workers := <[w := AwaitReply index]> (workers p);
                          completedChunks := completedChunks p;
                          rejection := rejection p;
                          log := log p ++
                            [EvPutChunk (toShaString blobRootHash) (toShaString chunkHash)
                               index chunkData (bucket client) (owner client)] |}
              end
          | Threw e => Some (reject w index e p)
          | OutOfFuel => None
          end
      end
  | Some (AwaitReply index) =>
      match uploadChunk W index with
      | Returned _ =>
          let currentCompleted := S (completedChunks p) in
          Some {| workers :=
                    <[w := start_worker (index + MAXIMUM_CONCURRENT_UPLOADS)]> (workers p);
                  completedChunks := currentCompleted;
                  rejection := rejection p;
                  log := log p ++ EvChunkStored index ::
                    (if onProgress
                     then [EvProgress (percentage currentCompleted (length chunks))]
                     else []) |}
      | Threw e => Some (reject w index e p)
      | OutOfFuel => None
      end
  | _ => None
  end.

(** The workers resumed in the order [schedule] gives; an entry for a
    worker that is not suspended changes nothing. *)
Definition pool_run (schedule : list nat) (p : pool) : pool :=
  foldl (λ p w, default p (pool_step w p)) p schedule.

Definition all_resolved (p : pool) : bool :=
  forallb (λ s, match s with Resolved => true | _ => false end) (workers p).

(** [await Promise.all(...)]: rejected with the first rejection, resolved
    when every worker is, pending otherwise. *)
Definition parallelUpload (schedule : list nat) : action unit :=
  let p := pool_run schedule pool_init in
  (log p,
   match rejection p with
   | Some e => Threw e
   | None => if all_resolved p then Returned tt else OutOfFuel
   end).

End ParallelUpload.

(** ** StorageClient *)

Record PutFileResult : Type := { path : string; hash_string : string; url : string }.

Section Client.

Variable W : World.
Variable client : StorageClient.

Definition getDirectURL (path : string) : action string :=
  if decide (path = "") then silently (Threw PathMustNotBeEmpty)
  else
    emit (EvGetFileReference path);;
    fileReference ← silently (getFileReference W path);
    mret (storageGatewayUrl client +:+ "/blob?blob_hash=" +:+
          encodeURIComponent W (ref_hash fileReference) +:+ "&owner_id=" +:+
          encodeURIComponent W (owner client)).

(** The loop of [processFileForUpload] from the chunk [i] on. *)
Fixpoint hash_chunks (i : nat) (chunks : list Blob) : outcome (list YHash) :=
  match chunks with
  | [] => Returned []
  | chunk :: rest =>
      chunkData ← arrayBuffer W Hashing i chunk;
      h ← fromBytes (subtle_digest W) chunkData;
      hs ← hash_chunks (S i) rest;
      Returned (h :: hs)
  end.

Definition processFileForUpload (file : Blob)
    : action (list Blob * list YHash * BlobHashTree) :=
  let chunks := createFileChunks file defaultChunkSize in
  chunkHashes ← silently (hash_chunks 0 chunks);
  emit (EvBuild chunkHashes);;
  blobHashTree ← silently (build (subtle_digest W) chunkHashes);
  mret (chunks, chunkHashes, blobHashTree).

Definition putFile (schedule : list nat) (onProgress : bool)
    (path : string) (file : Blob) : action PutFileResult :=
  if decide (path = "") then silently (Threw PathRequired)
  else
    '(chunks, chunkHashes, blobHashTree) ← processFileForUpload file;
    uploadBlobTree W blobHashTree (bucket client) (size file) (owner client);;
    let blobRootHash := hash (tree blobHashTree) in
    parallelUpload W client chunks chunkHashes blobRootHash onProgress schedule;;
    let hash := toShaString blobRootHash in
    emit (EvRegister path hash);;
    silently (registerFileReference W path hash);;
    url ← getDirectURL path;
    mret {| path := path; hash_string := hash; url := url |}.

End Client.

(** ** A concrete world

    WebCrypto computing SHA-256, a gateway that stores every chunk but those
    listed in [failing], a registry that accepts every reference. *)
Definition crypto_digest (data : list byte) : outcome (list byte) :=
  Returned (SHA256.sha256 data).

Definition sample_world (failing : list nat) : World :=
  {| subtle_digest := crypto_digest;
     read_fails := λ _ _, None;
     put_blob_tree := λ _ _ _ _, Ok "ok";
     put_chunk := λ i,
       if decide (i ∈ failing) then NotOk 500 "Internal Server Error" "chunk refused"
       else Ok "partial";
     registerFileReference := λ _ _, Returned tt;
     getFileReference := λ p, Returned {| ref_path := p; ref_hash := "sha256:00" |};
     encodeURIComponent := λ s, s |}.

Definition sample_client : StorageClient :=
  {| bucket := "images"; storageGatewayUrl := "https://gateway.example"; owner := "owner-1" |}.

(** Every worker in turn, [rounds] times over. *)
Definition round_robin (rounds : nat) : list nat :=
  mjoin (replicate rounds (seq 0 MAXIMUM_CONCURRENT_UPLOADS)).

Definition abc_digest : YHash := {| bytes := SHA256.sha256 (TextEncoder_encode "abc") |}.

(** ** Auxiliary predicates *)

(** What the tree builder needs of the digest: it answers, with 32 bytes. *)
Definition digest_ok (digest : list byte → outcome (list byte)) : Prop :=
  ∀ data, ∃ out, digest data = Returned out ∧ length out = 32%nat.

(** The two characters [toHex] writes for a byte are read back as that
    byte, and neither is a line terminator. *)
Definition hex_pair_ok (b : byte) : bool :=
  match padStart2 (toString16 b) with
  | String c1 (String c2 EmptyString) =>
      negb (is_line_terminator c1) && negb (is_line_terminator c2) &&
      Byte.eqb (to_uint8 (parseInt16 (String c1 (String c2 EmptyString)))) b
  | _ => false
  end.

(** The shapes of tagged strings. *)

Definition has_tag (s : string) : bool := String.prefix "sha256:" s.



(** ** Reading the events *)

(** The chunk indices of the requests sent to the gateway, of the chunks it
    acknowledged, of the chunks whose upload threw, and the arguments the
    progress callback was called with, each in the order of the events. *)
Definition requested (l : list event) : list nat :=
  omap (λ e, match e with EvPutChunk _ _ i _ _ _ => Some i | _ => None end) l.

Definition stored (l : list event) : list nat :=
  omap (λ e, match e with EvChunkStored i => Some i | _ => None end) l.

Definition failed (l : list event) : list nat :=
  omap (λ e, match e with EvChunkFailed i _ => Some i | _ => None end) l.

Definition progress (l : list event) : list number :=
  omap (λ e, match e with EvProgress x => Some x | _ => None end) l.

(** The acknowledgements and the calls of the callback, together, in their
    order. *)
Definition acknowledged (l : list event) : list (nat + number) :=
  omap (λ e, match e with
             | EvChunkStored i => Some (inl i)
             | EvProgress x => Some (inr x)
             | _ => None
             end) l.

Definition registered (l : list event) : list (string * string) :=
  omap (λ e, match e with EvRegister p h => Some (p, h) | _ => None end) l.

Definition built (l : list event) : list (list YHash) :=
  omap (λ e, match e with EvBuild hs => Some hs | _ => None end) l.

(** ** The invariant of the worker pool *)

(** What the state of the worker [w] says about the events: of the indices
    of its stride, those before its current index have been requested and
    stored, and the current one has been requested when the worker waits
    for the reply. *)
Definition worker_ok (total : nat) (p : pool) (w : nat) (s : worker) : Prop :=
  match s with
  | AwaitRead i =>
      i mod MAXIMUM_CONCURRENT_UPLOADS = w ∧ i < total
      ∧ ∀ j, j mod MAXIMUM_CONCURRENT_UPLOADS = w →
             (j ∈ requested (log p) ↔ j < i) ∧ (j ∈ stored (log p) ↔ j < i)
  | AwaitReply i =>
      i mod MAXIMUM_CONCURRENT_UPLOADS = w ∧ i < total
      ∧ ∀ j, j mod MAXIMUM_CONCURRENT_UPLOADS = w →
             (j ∈ requested (log p) ↔ j ≤ i) ∧ (j ∈ stored (log p) ↔ j < i)
  | Resolved =>
      ∀ j, j mod MAXIMUM_CONCURRENT_UPLOADS = w →
           (j ∈ requested (log p) ↔ j < total) ∧ (j ∈ stored (log p) ↔ j < total)
  | RejectedWith _ => is_Some (rejection p)
  end%nat.

Record pool_inv (total : nat) (onProgress : bool) (p : pool) : Prop := {
  inv_width : length (workers p) = MAXIMUM_CONCURRENT_UPLOADS;
  inv_workers : ∀ w s, workers p !! w = Some s → worker_ok total p w s;
  inv_requested_NoDup : NoDup (requested (log p));
  inv_requested_bound : ∀ j, j ∈ requested (log p) → (j < total)%nat;
  inv_stored_NoDup : NoDup (stored (log p));
  inv_stored_requested : ∀ j, j ∈ stored (log p) → j ∈ requested (log p);
  inv_completed : completedChunks p = length (stored (log p));
  inv_progress :
    progress (log p) =
      if onProgress
      then (λ k, percentage k total) <$> seq 1 (completedChunks p)
      else [];
  inv_rejection : rejection p = None ↔ failed (log p) = [];
  inv_only_chunk_events : registered (log p) = [] ∧ built (log p) = [];
  inv_acknowledged :
    acknowledged (log p) =
      mjoin (imap (λ k i, inl i ::
                          if onProgress then [inr (percentage (S k) total)] else [])
                  (stored (log p))) }.

(** How many resumptions the worker still has before it, at most. *)
Definition worker_steps (total : nat) (s : worker) : nat :=
  match s with
  | AwaitRead i => 2 * (total - i)
  | AwaitReply i => 2 * (total - i) - 1
  | _ => 0
  end.

(** A world in which no chunk upload fails. *)
Definition uploads_succeed (W : World) (total : nat) : Prop :=
  ∀ i, (i < total)%nat →
       read_fails W Uploading i = None ∧ ∃ status, put_chunk W i = Ok status.

(** The resumptions the pool still has before it, at most. *)
Definition pool_steps (total : nat) (p : pool) : nat :=
  sum_list_with (worker_steps total) (workers p).

(** [count] chunks of one byte each. *)
Definition sample_chunks (count : nat) : list Blob :=
  (λ i, [byte_of_Z (Z.of_nat i)]) <$> seq 0 count.

(** ** More on digests: the shape of the hexadecimal form *)

Definition is_hex_digit (c : ascii) : bool := bool_decide (is_Some (hex_value c)).

Definition is_lower_hex_digit (c : ascii) : bool :=
  let n := N_of_ascii c in
  (((48 <=? n) && (n <=? 57)) || ((97 <=? n) && (n <=? 102)))%N.

(** The lowercase form of a hexadecimal digit. *)
Definition lower_hex_digit (c : ascii) : ascii :=
  let n := N_of_ascii c in
  if ((65 <=? n) && (n <=? 70))%N then ascii_of_N (n + 32) else c.

Fixpoint lower_hex (s : string) : string :=
  match s with
  | EmptyString => EmptyString
  | String c s' => String (lower_hex_digit c) (lower_hex s')
  end.

Definition hex_digits : list ascii := list_ascii_of_string "0123456789abcdefABCDEF".

(** Two hexadecimal digits make a group of [/.{1,2}/g] that is read as the
    byte which [toHex] writes as their lowercase forms. *)
Definition hex_digits_ok (c1 c2 : ascii) : bool :=
  negb (is_line_terminator c1) && negb (is_line_terminator c2) &&
  String.eqb
    (padStart2 (toString16 (to_uint8 (parseInt16 (String c1 (String c2 EmptyString))))))
    (String (lower_hex_digit c1) (String (lower_hex_digit c2) EmptyString)).

Definition all_chars (P : ascii → bool) (s : string) : bool :=
  forallb P (list_ascii_of_string s).


(** The characters [toHex] writes for a byte are digits or lowercase. *)
Definition lower_pair_ok (b : byte) : bool :=
  match padStart2 (toString16 b) with
  | String c1 (String c2 EmptyString) =>
      is_lower_hex_digit c1 && is_lower_hex_digit c2
  | _ => false
  end.

(** ** More on the hash tree: what a tree holds *)

(** The hashes of the nodes without children, from left to right. *)
Fixpoint leaves (node : TreeNode) : list YHash :=
  match node with
  | Build_TreeNode h None None => [h]
  | Build_TreeNode _ l r =>
      match l with Some n => leaves n | None => [] end ++
      match r with Some n => leaves n | None => [] end
  end.

(** The hashes of all the nodes. *)
Fixpoint node_hashes (node : TreeNode) : list YHash :=
  match node with
  | Build_TreeNode h l r =>
      h :: match l with Some n => node_hashes n | None => [] end ++
           match r with Some n => node_hashes n | None => [] end
  end.

(** The bytes [build] hashes for a parent: the left hash, then the right
    hash or the sentinel. *)
Definition parent_bytes (l : YHash) (r : option YHash) : list byte :=
  bytes l ++ match r with
             | Some r => bytes r
             | None => TextEncoder_encode "UNBALANCED"
             end.

(** Every node with a child has a left child, and its hash is the digest of
    the bytes of its children. *)
Fixpoint merkle_ok (digest : list byte → outcome (list byte)) (node : TreeNode) : Prop :=
  match node with
  | Build_TreeNode _ None None => True
  | Build_TreeNode _ None (Some _) => False
  | Build_TreeNode h (Some l) r =>
      fromBytes digest (parent_bytes (hash l) (hash <$> r)) = Returned h
      ∧ merkle_ok digest l
      ∧ match r with Some n => merkle_ok digest n | None => True end
  end.

(** The invariant of [build] on a level, after [j] passes over the chunk
    hashes [cs]. *)
Definition level_ok (digest : list byte → outcome (list byte)) (cs : list YHash)
    (j : nat) (level : list TreeNode) : Prop :=
  mjoin (leaves <$> level) = cs
  ∧ Forall (merkle_ok digest) level
  ∧ Forall (λ n, height n = j) level
  ∧ (Forall (λ h, length (bytes h) = 32%nat) cs →
     Forall (λ n, Forall (λ h, length (bytes h) = 32%nat) (node_hashes n)) level)
  ∧ (length cs ≤ length level * 2 ^ j)%nat
  ∧ ((length level - 1) * 2 ^ j < length cs)%nat
  ∧ (0 < j → 2 ^ (j - 1) < length cs)%nat.

(** ** More on the worker pool: failures and requests in flight *)

(** The chunk uploads that threw, with what they threw, in the order of
    the events. *)
Definition failures (l : list event) : list (nat * error) :=
  omap (λ e, match e with EvChunkFailed i err => Some (i, err) | _ => None end) l.

(** The requests the gateway has not answered yet: sent, and neither
    acknowledged nor failed. *)
Definition in_flight (l : list event) : list nat :=
  filter (λ j, (j ∉ stored l) ∧ (j ∉ failed l)) (requested l).

(** Why [uploadSingleChunk(i)] throws [e]: reading the chunk was rejected,
    there is no digest at the index [i], or [uploadChunk] threw. *)
Definition chunk_failure (W : World) (chunkHashes : list YHash)
    (i : nat) (e : error) : Prop :=
  (∃ reason, read_fails W Uploading i = Some reason ∧ e = Rejected reason)
  ∨ (chunkHashes !! i = None ∧ e = NullDereference)
  ∨ uploadChunk W i = Threw e.

(** What the pool knows of its failures: the rejection passed on is the
    first one; a worker is rejected exactly when a chunk of its stride
    failed, which then is the last chunk of the stride it asked for; every
    request is answered, failed, or the one its worker waits for. *)
Record pool_failures (W : World) (chunkHashes : list YHash) (total : nat)
    (p : pool) : Prop := {
  fail_first : rejection p = snd <$> head (failures (log p));
  fail_worker : ∀ j e, (j, e) ∈ failures (log p) →
    workers p !! (j mod MAXIMUM_CONCURRENT_UPLOADS)%nat = Some (RejectedWith e);
  fail_rejected : ∀ w e, workers p !! w = Some (RejectedWith e) →
    ∃ j, (j mod MAXIMUM_CONCURRENT_UPLOADS)%nat = w
         ∧ (j, e) ∈ failures (log p)
         ∧ ∀ k, (k mod MAXIMUM_CONCURRENT_UPLOADS)%nat = w →
                (k ∈ requested (log p) → (k ≤ j)%nat)
                ∧ (k ∈ stored (log p) → (k < j)%nat)
                ∧ (k ∈ failed (log p) → k = j);
  fail_cause : ∀ j e, (j, e) ∈ failures (log p) →
    (j < total)%nat ∧ chunk_failure W chunkHashes j e;
  fail_in_flight : ∀ j, j ∈ requested (log p) →
    j ∈ stored (log p) ∨ j ∈ failed (log p)
    ∨ workers p !! (j mod MAXIMUM_CONCURRENT_UPLOADS)%nat = Some (AwaitReply j);
  fail_NoDup : NoDup (failed (log p)) }.

(** What a chunk request carries: the tagged root digest, the tagged digest
    at the index of the chunk, the index, the bytes of the chunk, and the
    bucket and the owner of the client. *)
Definition chunk_request_ok (client : StorageClient) (chunks : list Blob)
    (chunkHashes : list YHash) (blobRootHash : YHash) (e : event) : Prop :=
  match e with
  | EvPutChunk blob_hash chunk_hash index data bucket_name owner_name =>
      blob_hash = toShaString blobRootHash
      ∧ chunks !! index = Some data
      ∧ (∃ h, chunkHashes !! index = Some h ∧ chunk_hash = toShaString h)
      ∧ bucket_name = bucket client ∧ owner_name = owner client
  | _ => True
  end.

(** What the pool knows of the replies: a chunk is acknowledged only after
    the gateway answered its request with an [ok] response, and the upload
    of a chunk that was requested fails only with what [uploadChunk]
    threw. *)
Record pool_replies (W : World) (p : pool) : Prop := {
  reply_stored : ∀ i, i ∈ stored (log p) → ∃ status, put_chunk W i = Ok status;
  reply_failed : ∀ i e, (i, e) ∈ failures (log p) → i ∈ requested (log p) →
    uploadChunk W i = Threw e }.

(** ** The quadtree (quadtree generator)

    [buildQuadtree] and the two colour statistics it calls. The numbers the
    callers pass for positions, sizes and depths are integers (canvas sizes,
    [Math.floor] of halves, [parseInt] of the controls) and are integers
    here; colours are binary64 numbers. *)
Module Quadtree.

(** [ImageData]: the bytes of a [Uint8ClampedArray], four for each pixel,
    and the size of the image. *)
Record ImageData : Type := {
  data : list byte;
  image_width : Z;
  image_height : Z }.

Inductive CellShape : Type := square | rectangle.

Definition Color : Type := number * number * number.

Inductive QuadNode : Type :=
  Build_QuadNode {
    x : Z;
    y : Z;
    width : Z;
    height : Z;
    color : Color;
    children : option (list QuadNode) }.

Definition NaN : number := S754_nan.
Definition number_add : number → number → number := SFadd 53 1024.
Definition number_sub : number → number → number := SFsub 53 1024.
Definition number_lt : number → number → bool := SFltb.

(** [imageData.data[index]] in an arithmetic expression: the byte as a
    number, and NaN for the [undefined] of an index outside the array. *)
Definition data_at (imageData : ImageData) (index : Z) : number :=
  if index <? 0 then NaN
  else match data imageData !! Z.to_nat index with
       | Some b => number_of_Z (byte_to_Z b)
       | None => NaN
       end.

(** The pairs [(px, py)] the two nested [for] loops visit, in their
    order. *)
Definition pixels (x y width height : Z) : list (Z * Z) :=
  py ← seqZ y height; px ← seqZ x width; [(px, py)].

(** The guard of the loop body. *)
Definition in_image (imageData : ImageData) (px py : Z) : bool :=
  (0 <=? px) && (px <? image_width imageData)
  && (0 <=? py) && (py <? image_height imageData).

(** [count] is a counter of pixels: an integer, exact as a number below
    2^53. *)
Definition getAverageColor (imageData : ImageData) (x y width height : Z) : Color :=
  let '(r, g, b, count) :=
    foldl (λ '(r, g, b, count) '(px, py),
             if in_image imageData px py then
               let index := (py * image_width imageData + px) * 4 in
               (number_add r (data_at imageData index),
                number_add g (data_at imageData (index + 1)),
                number_add b (data_at imageData (index + 2)),
                count + 1)
             else (r, g, b, count))
          (number_of_Z 0, number_of_Z 0, number_of_Z 0, 0)
          (pixels x y width height) in
  if 0 <? count
  then (number_div r (number_of_Z count), number_div g (number_of_Z count),
        number_div b (number_of_Z count))
  else (number_of_Z 0, number_of_Z 0, number_of_Z 0).

Definition getColorVariance (imageData : ImageData) (x y width height : Z)
    (avgColor : Color) : number :=
  let '(variance, count) :=
    foldl (λ '(variance, count) '(px, py),
             if in_image imageData px py then
               let index := (py * image_width imageData + px) * 4 in
               let r := data_at imageData index in
               let g := data_at imageData (index + 1) in
               let b := data_at imageData (index + 2) in
               let dr := number_sub r avgColor.1.1 in
               let dg := number_sub g avgColor.1.2 in
               let db := number_sub b avgColor.2 in
               (number_add variance
                  (number_add (number_add (number_mul dr dr) (number_mul dg dg))
                     (number_mul db db)),
                count + 1)
             else (variance, count))
          (number_of_Z 0, 0)
          (pixels x y width height) in
  if 0 <? count then number_div variance (number_of_Z count) else number_of_Z 0.

(** [buildQuadtree], with [fuel] for the depth of the recursion. *)
Fixpoint buildQuadtree_fuel (fuel : nat) (imageData : ImageData)
    (x y width height minSize maxDepth currentDepth : Z) (cellShape : CellShape)
    : outcome QuadNode :=
  match fuel with
  | O => OutOfFuel
  | S fuel' =>
      let avgColor := getAverageColor imageData x y width height in
      let variance := getColorVariance imageData x y width height avgColor in
      let leaf := {| x := x; y := y; width := width; height := height;
                     color := avgColor; children := None |} in
      let recurse x y width height :=
        buildQuadtree_fuel fuel' imageData x y width height minSize maxDepth
          (currentDepth + 1) cellShape in
      if (maxDepth <=? currentDepth) || (width <=? minSize) || (height <=? minSize)
         || number_lt variance (number_of_Z 1000)
      then Returned leaf
      else
        match cellShape with
        | square =>
            let halfWidth := width / 2 in
            let halfHeight := height / 2 in
            c1 ← recurse x y halfWidth halfHeight;
            c2 ← recurse (x + halfWidth) y (width - halfWidth) halfHeight;
            c3 ← recurse x (y + halfHeight) halfWidth (height - halfHeight);
            c4 ← recurse (x + halfWidth) (y + halfHeight)
                   (width - halfWidth) (height - halfHeight);
            Returned {| x := x; y := y; width := width; height := height;
                        color := avgColor; children := Some [c1; c2; c3; c4] |}
        | rectangle =>
            let splitHorizontally := Z.rem currentDepth 2 =? 0 in
            if splitHorizontally && (minSize * 2 <? height) then
              let halfHeight := height / 2 in
              c1 ← recurse x y width halfHeight;
              c2 ← recurse x (y + halfHeight) width (height - halfHeight);
              Returned {| x := x; y := y; width := width; height := height;
                          color := avgColor; children := Some [c1; c2] |}
            else if negb splitHorizontally && (minSize * 2 <? width) then
              let halfWidth := width / 2 in
              c1 ← recurse x y halfWidth height;
              c2 ← recurse (x + halfWidth) y (width - halfWidth) height;
              Returned {| x := x; y := y; width := width; height := height;
                          color := avgColor; children := Some [c1; c2] |}
            else Returned leaf
        end
  end.

(** The recursion goes one level down for each unit between the current
    depth and the maximal depth. *)
Definition buildQuadtree (imageData : ImageData)
    (x y width height minSize maxDepth currentDepth : Z) (cellShape : CellShape)
    : outcome QuadNode :=
  buildQuadtree_fuel (S (Z.to_nat (maxDepth - currentDepth))) imageData
    x y width height minSize maxDepth currentDepth cellShape.

(** The nodes of a tree, a node before its children, and its leaves, from
    the first child to the last. *)
Fixpoint nodes (node : QuadNode) : list QuadNode :=
  node :: match children node with
          | None => []
          | Some cs => mjoin (nodes <$> cs)
          end.

Fixpoint leaves (node : QuadNode) : list QuadNode :=
  match children node with
  | None => [node]
  | Some cs => mjoin (leaves <$> cs)
  end.

Fixpoint depth (node : QuadNode) : nat :=
  match children node with
  | None => 0%nat
  | Some cs => S (foldr Nat.max 0%nat (depth <$> cs))
  end.

(** The pixel [(px, py)] lies in the cell of the node. *)
Definition covers (node : QuadNode) (px py : Z) : bool :=
  bool_decide (x node ≤ px < x node + width node ∧ y node ≤ py < y node + height node).

(** The cell of a node, as [(x, y, width, height)]. *)
Definition cell (node : QuadNode) : Z * Z * Z * Z :=
  (x node, y node, width node, height node).

(** What [buildQuadtree] makes of a node with children: the cells of the
    children, given the cell shape and the depth of the node. *)
Definition split_ok (cellShape : CellShape) (minSize : Z) (nodeDepth : Z)
    (node : QuadNode) : Prop :=
  match children node with
  | None => True
  | Some cs =>
      let '(x, y, w, h) := cell node in
      minSize < w ∧ minSize < h
      ∧ match cellShape with
        | square =>
            cell <$> cs = [(x, y, w / 2, h / 2);
                           (x + w / 2, y, w - w / 2, h / 2);
                           (x, y + h / 2, w / 2, h - h / 2);
                           (x + w / 2, y + h / 2, w - w / 2, h - h / 2)]
        | rectangle =>
            (Z.rem nodeDepth 2 = 0 ∧ minSize * 2 < h
             ∧ cell <$> cs = [(x, y, w, h / 2); (x, y + h / 2, w, h - h / 2)])
            ∨ (Z.rem nodeDepth 2 ≠ 0 ∧ minSize * 2 < w
               ∧ cell <$> cs = [(x, y, w / 2, h); (x + w / 2, y, w - w / 2, h)])
        end
  end.

(** Every node of the tree, with its depth, satisfies [P]. *)
Fixpoint all_nodes (P : Z → QuadNode → Prop) (nodeDepth : Z) (node : QuadNode) : Prop :=
  P nodeDepth node
  ∧ match children node with
    | None => True
    | Some cs => foldr (λ c rest, all_nodes P (nodeDepth + 1) c ∧ rest) True cs
    end.

(** What [buildQuadtree] makes of every node: its colour is the average
    colour of its own cell, its children are cut out of its cell as the
    cell shape says, and it has children only above the maximal depth and
    when the variance of its cell is not below 1000. *)
Definition node_ok (imageData : ImageData) (cellShape : CellShape)
    (minSize maxDepth nodeDepth : Z) (node : QuadNode) : Prop :=
  let '(x, y, w, h) := cell node in
  color node = getAverageColor imageData x y w h
  ∧ split_ok cellShape minSize nodeDepth node
  ∧ (is_Some (children node) →
     nodeDepth < maxDepth
     ∧ number_lt (getColorVariance imageData x y w h (color node)) (number_of_Z 1000)
       = false).

(** The least size [buildQuadtree] gives a cell cut out of another one:
    a cell is halved when it is larger than [minSize], and in the shape
    [rectangle] only along a side larger than twice [minSize]. *)
Definition least_size (cellShape : CellShape) (minSize : Z) : Z :=
  match cellShape with
  | square => (minSize + 1) / 2
  | rectangle => minSize
  end.

(** What the tree built for the cell [(x, y, w, h)] at the depth
    [currentDepth] is like: its root has that cell, every node is as
    [node_ok] says, the tree is no deeper than the maximal depth allows,
    every pixel lies in as many leaves as in the root cell (one or none),
    and no cell is smaller than [least_size], unless the root is. *)
Definition built_ok (imageData : ImageData) (cellShape : CellShape)
    (minSize maxDepth : Z) (x y w h currentDepth : Z) (t : QuadNode) : Prop :=
  cell t = (x, y, w, h)
  ∧ all_nodes (node_ok imageData cellShape minSize maxDepth) currentDepth t
  ∧ (depth t ≤ Z.to_nat (maxDepth - currentDepth))%nat
  ∧ (∀ px py, length (filter (λ c, covers c px py) (leaves t))
              = if covers t px py then 1%nat else 0%nat)
  ∧ (∀ n, n ∈ nodes t →
          Z.min w (least_size cellShape minSize) ≤ width n
          ∧ Z.min h (least_size cellShape minSize) ≤ height n).

(** An image of [side] by [side] pixels, white where the sum of the
    coordinates is even and black elsewhere. *)
Definition checkerboard (side : Z) : ImageData :=
  {| data := '(px, py) ← pixels 0 0 side side;
             if Z.even (px + py) then [xff; xff; xff; xff] else [x00; x00; x00; xff];
     image_width := side;
     image_height := side |}.

End Quadtree.

(** * Properties *)

(** ** Digests *)

Example sha256_abc :
  toHex abc_digest = "ba7816bf8f01cfea414140de5dae2223b00361a396177a9cb410ff61f20015ad".
Proof. vm_compute. reflexivity. Qed.

Example sha256_two_blocks :
  toHex {| bytes := SHA256.sha256
             (TextEncoder_encode "abcdbcdecdefdefgefghfghighijhijkijkljklmklmnlmnomnopnopq") |}
  = "248d6a61d20638b8e5c026930c3e6039a33ce45964ff2167f6ecedd419db06c1".
Proof. vm_compute. reflexivity. Qed.

Lemma be_bytes_length count v : length (SHA256.be_bytes count v) = count.
Proof. unfold SHA256.be_bytes. by rewrite length_fmap, length_rev, length_seq. Qed.

Lemma sha256_length msg : length (SHA256.sha256 msg) = 32%nat.
Proof.
  unfold SHA256.sha256.
  destruct (foldl _ _ _) as [[[[[[[h0 h1] h2] h3] h4] h5] h6] h7].
  by rewrite !length_app, !be_bytes_length.
Qed.

Lemma crypto_digest_ok : digest_ok crypto_digest.
Proof. intros data. exists (SHA256.sha256 data). split; [done | apply sha256_length]. Qed.

Lemma new_YHash_32 bs : length bs = 32%nat → new_YHash bs = Returned {| bytes := bs |}.
Proof. intros H. unfold new_YHash. by rewrite decide_True. Qed.


Lemma hex_pair_ok_all b : hex_pair_ok b = true.
Proof. destruct b; vm_compute; reflexivity. Qed.

Lemma hex_pair b :
  ∃ c1 c2, padStart2 (toString16 b) = String c1 (String c2 EmptyString)
    ∧ is_line_terminator c1 = false ∧ is_line_terminator c2 = false
    ∧ to_uint8 (parseInt16 (String c1 (String c2 EmptyString))) = b.
Proof.
  pose proof (hex_pair_ok_all b) as H. unfold hex_pair_ok in H.
  destruct (padStart2 (toString16 b)) as [|c1 [|c2 [|]]]; try discriminate.
  exists c1, c2.
  apply andb_prop in H as [H Hb]. apply andb_prop in H as [H1 H2].
  apply negb_true_iff in H1, H2. apply Byte.byte_dec_bl in Hb. done.
Qed.

Lemma append_cons c (s t : string) : String c s +:+ t = String c (s +:+ t).
Proof. reflexivity. Qed.

Lemma append_nil_r (s : string) : s +:+ "" = s.
Proof. induction s as [|c s IH]; [done | by rewrite append_cons, IH]. Qed.

Lemma concat_cons (x : string) xs :
  String.concat "" (x :: xs) = x +:+ String.concat "" xs.
Proof. destruct xs as [|y ys]; simpl; [by rewrite append_nil_r | done]. Qed.

Lemma match_pairs_toHex bs :
  match_pairs (toHex {| bytes := bs |}) = (λ b, padStart2 (toString16 b)) <$> bs.
Proof.
  unfold toHex. simpl. induction bs as [|b bs IH]; [done|].
  rewrite fmap_cons, concat_cons.
  destruct (hex_pair b) as (c1 & c2 & -> & H1 & H2 & _).
  rewrite !append_cons. change ("" +:+ ?s) with s.
  simpl. rewrite H1, H2. by rewrite IH.
Qed.

Lemma parse_pairs_toHex (bs : list byte) :
  (λ g, to_uint8 (parseInt16 g)) <$> ((λ b, padStart2 (toString16 b)) <$> bs) = bs.
Proof.
  induction bs as [|b bs IH]; [done|].
  rewrite !fmap_cons, IH. f_equal.
  by destruct (hex_pair b) as (c1 & c2 & -> & _ & _ & ->).
Qed.

Lemma replace_first_unfold pat rep s :
  replace_first pat rep s =
    if String.prefix pat s then rep +:+ drop_chars (String.length pat) s
    else match s with
         | EmptyString => s
         | String c s' => String c (replace_first pat rep s')
         end.
Proof. by destruct s. Qed.

Lemma replace_tag s : replace_first "sha256:" "" ("sha256:" +:+ s) = s.
Proof.
  rewrite replace_first_unfold.
  replace (String.prefix "sha256:" ("sha256:" +:+ s)) with true
    by (by destruct s).
  reflexivity.
Qed.

Lemma fromHex_toHex bs :
  length bs = 32%nat → fromHex (toHex {| bytes := bs |}) = Returned {| bytes := bs |}.
Proof.
  intros Hlen. unfold fromHex, match_all. rewrite match_pairs_toHex.
  destruct bs as [|b bs]; [done|].
  rewrite fmap_cons. rewrite <- (fmap_cons (λ b, padStart2 (toString16 b))).
  rewrite parse_pairs_toHex. by apply new_YHash_32.
Qed.

(** C7. Round trip of the tagged string: for every YHash [h] of 32 bytes,
    [YHash.fromShaString(h.toShaString())] returns a YHash with the bytes of
    [h]. *)
Theorem fromShaString_toShaString (h : YHash) :
  length (bytes h) = 32%nat → fromShaString (toShaString h) = Returned h.
Proof.
  intros Hlen. destruct h as [bs]. unfold fromShaString, toShaString.
  rewrite replace_tag. by apply fromHex_toHex.
Qed.

Lemma fromShaString_toShaString_witness :
  length (bytes abc_digest) = 32%nat
  ∧ fromShaString (toShaString abc_digest) = Returned abc_digest.
Proof.
  split; [apply sha256_length|].
  apply (fromShaString_toShaString abc_digest), sha256_length.
Defined.

Lemma string_pair_ind (P : string → Prop) :
  P EmptyString → (∀ c, P (String c EmptyString)) →
  (∀ c1 c2 s, P s → P (String c1 (String c2 s))) → ∀ s, P s.
Proof.
  intros H0 H1 H2 s.
  cut (P s ∧ ∀ c, P (String c s)); [tauto|].
  induction s as [|c s [IH1 IH2]]; split; auto.
Qed.




(** No text at all, a tag alone, and a digest one digit short: the
    TypeError twice, then the length error with the 31 groups counted;
    the digest of 63 digits falls into 32 groups and is accepted. *)
Example fromShaString_errors :
  fromShaString "" = Threw NullDereference
  ∧ fromShaString "sha256:" = Threw NullDereference
  ∧ fromShaString ("sha256:" +:+ String.concat "" (replicate 31 "ab"))
    = Threw (YHashLength 31)
  ∧ fromShaString "not a digest" = Threw (YHashLength 6)
  ∧ ∃ h, fromShaString ("sha256:" +:+ String.concat "" (replicate 31 "ab") +:+ "c")
         = Returned h.
Proof. vm_compute. repeat split; eauto. Qed.

(** C10. [toString()] of a YHash throws, whatever the YHash is: it never
    returns a string. *)
Theorem toString_always_throws (h : YHash) :
  toString h = Threw ToStringNotSupported ∧ ∀ s, toString h ≠ Returned s.
Proof. split; [reflexivity | intros s H; discriminate H]. Qed.

(** ** The hash tree *)

Lemma list_pair_ind {A} (P : list A → Prop) :
  P [] → (∀ x, P [x]) → (∀ x y l, P l → P (x :: y :: l)) → ∀ l, P l.
Proof.
  intros H0 H1 H2 l.
  cut (P l ∧ ∀ x, P (x :: l)); [tauto|].
  induction l as [|y l [IH1 IH2]]; split; auto.
Qed.

Section Tree.

Variable digest : list byte → outcome (list byte).
Hypothesis digest_answers : digest_ok digest.

Lemma fromBytes_total data :
  ∃ out, digest data = Returned out ∧ length out = 32%nat
         ∧ fromBytes digest data = Returned {| bytes := out |}.
Proof.
  destruct (digest_answers data) as (out & Hd & Hlen).
  exists out. repeat split; [done..|].
  unfold fromBytes. rewrite Hd. simpl. by apply new_YHash_32.
Qed.

Lemma nextLevel_total level :
  ∃ next, nextLevel digest level = Returned next
          ∧ length next = Nat.div2 (S (length level)).
Proof.
  induction level as [|l|l r rest (next & Hn & Hlen)] using list_pair_ind.
  - by exists [].
  - destruct (fromBytes_total (bytes (hash l) ++ TextEncoder_encode "UNBALANCED"))
      as (out & _ & _ & Hf).
    eexists. cbn [nextLevel]. rewrite Hf. cbn. split; reflexivity.
  - destruct (fromBytes_total (bytes (hash l) ++ bytes (hash r)))
      as (out & _ & _ & Hf).
    eexists. cbn [nextLevel]. rewrite Hf. cbn. rewrite Hn. cbn.
    split; [reflexivity|]. simpl. by rewrite Hlen.
Qed.

Lemma div2_succ_lt n : (1 < n → 0 < Nat.div2 (S n) < n)%nat.
Proof.
  intros H. rewrite Nat.div2_div. split; [apply Nat.div_str_pos; lia|].
  apply Nat.Div0.div_lt_upper_bound; lia.
Qed.

Lemma while_level_total fuel level :
  (length level ≤ fuel)%nat → level ≠ [] →
  ∃ root, while_level digest fuel level = Returned [root].
Proof.
  revert level. induction fuel as [|fuel IH]; intros level Hfuel Hne.
  - destruct level; [done | simpl in Hfuel; lia].
  - cbn [while_level]. destruct (decide (1 < length level)%nat) as [Hlong|Hshort].
    + destruct (nextLevel_total level) as (next & -> & Hlen).
      pose proof (div2_succ_lt _ Hlong) as Hd.
      cbn. apply IH; [lia|]. intros ->. cbn [length] in Hlen. lia.
    + destruct level as [|root [|]]; [done | by exists root | simpl in Hshort; lia].
Qed.

Lemma build_total chunkHashes :
  chunkHashes ≠ [] →
  ∃ root, build digest chunkHashes =
    Returned {| tree_type := "BMT"; chunk_hashes := chunkHashes; tree := root |}.
Proof.
  intros Hne. unfold build.
  rewrite decide_False by (by destruct chunkHashes).
  destruct (while_level_total (length chunkHashes) (leaf <$> chunkHashes))
    as (root & ->); [by rewrite length_fmap | by destruct chunkHashes |].
  by exists root.
Qed.

End Tree.

(** The parent at the index [k] of the next level is what the loop body
    makes at [index = 2 * k]: its children are [level[index]] and
    [level[index + 1]] (none past the end), and its hash is the digest of
    the bytes of the left hash followed by those of the right hash, or by
    the sentinel. *)
Lemma nextLevel_lookup (digest : list byte → outcome (list byte))
    (level next : list TreeNode) (k : nat) :
  nextLevel digest level = Returned next → (k < length next)%nat →
  ∃ l parentHash,
    level !! (2 * k)%nat = Some l
    ∧ next !! k = Some {| hash := parentHash; left := Some l;
                          right := level !! (2 * k + 1)%nat |}
    ∧ fromBytes digest
        (bytes (hash l) ++
         match level !! (2 * k + 1)%nat with
         | Some r => bytes (hash r)
         | None => TextEncoder_encode "UNBALANCED"
         end) = Returned parentHash.
Proof.
  revert next k.
  induction level as [|l|l r rest IH] using list_pair_ind; intros next k Hn Hk.
  - injection Hn as <-. simpl in Hk. lia.
  - cbn [nextLevel] in Hn.
    destruct (fromBytes digest _) as [parentHash|e|] eqn:Hf; [|done..].
    injection Hn as <-. destruct k as [|k]; [|simpl in Hk; lia].
    by exists l, parentHash.
  - cbn [nextLevel] in Hn.
    destruct (fromBytes digest _) as [parentHash|e|] eqn:Hf; [|done..].
    cbn in Hn. destruct (nextLevel digest rest) as [parents|e|]; [|done..].
    injection Hn as <-. destruct k as [|k]; [by exists l, parentHash|].
    destruct (IH parents k eq_refl) as (l' & h' & H1 & H2 & H3);
      [simpl in Hk; lia|].
    exists l', h'.
    replace (2 * S k)%nat with (S (S (2 * k))) by lia.
    replace (S (S (2 * k)) + 1)%nat with (S (S (2 * k + 1))) by lia.
    done.
Qed.

Lemma bytes_inj (l1 l2 : list YHash) : bytes <$> l1 = bytes <$> l2 → l1 = l2.
Proof.
  revert l2. induction l1 as [|[b1] l1 IH]; intros [|[b2] l2] H; try done.
  simpl in H. injection H as -> H. f_equal. by apply IH.
Qed.

(** C1. The tree builder is deterministic and total on non-empty input:
    with a digest primitive that answers (with 32 bytes), building from a
    non-empty sequence of chunk digests returns a tree, and building again
    from a sequence with the same digest bytes returns the same tree, hence
    the same root digest. *)
Theorem build_deterministic (digest : list byte → outcome (list byte))
    (chunkHashes again : list YHash) :
  digest_ok digest → chunkHashes ≠ [] →
  bytes <$> again = bytes <$> chunkHashes →
  ∃ t, build digest chunkHashes = Returned t ∧ build digest again = Returned t
       ∧ chunk_hashes t = chunkHashes.
Proof.
  intros Hd Hne Hsame. apply bytes_inj in Hsame as ->.
  destruct (build_total digest Hd chunkHashes Hne) as (root & Hb).
  eexists. by rewrite Hb.
Qed.

Lemma build_deterministic_witness :
  ∃ t, build crypto_digest [abc_digest; abc_digest; abc_digest] = Returned t
       ∧ build crypto_digest
           [{| bytes := SHA256.sha256 (TextEncoder_encode "abc") |}; abc_digest; abc_digest]
         = Returned t
       ∧ chunk_hashes t = [abc_digest; abc_digest; abc_digest].
Proof.
  apply (build_deterministic crypto_digest);
    [apply crypto_digest_ok | discriminate | reflexivity].
Defined.

Example build_three :
  (t ← build crypto_digest [abc_digest; abc_digest; abc_digest];
   Returned (toHex (hash (tree t)), height (tree t)))
  = Returned ("4e9bf3deba68dd9e7b1601bfc87c60ad4c6887d1380f9e4e22423a5bd9e71203", 2%nat).
Proof. vm_compute. reflexivity. Qed.

(** C2, as the specification states it, fails: built from the single
    digest of ["abc"], the tree is that leaf, of height 0, and its root
    digest is the chunk digest, not the SHA-256 of the chunk digest followed
    by the sentinel. *)
Lemma build_single_is_leaf :
  ∃ t, build crypto_digest [abc_digest] = Returned t
       ∧ height (tree t) = 0%nat
       ∧ toHex (hash (tree t))
         = "ba7816bf8f01cfea414140de5dae2223b00361a396177a9cb410ff61f20015ad"
       ∧ (h ← fromBytes crypto_digest (bytes abc_digest ++ TextEncoder_encode "UNBALANCED");
          Returned (toHex h))
         = Returned "4779faf030c806ed0c9f42d9374cb18d0c6d892fe2da3db02b74fc3d014bdd49"
       ∧ fromBytes crypto_digest (bytes abc_digest ++ TextEncoder_encode "UNBALANCED")
         ≠ Returned (hash (tree t)).
Proof. eexists. split; [reflexivity|]. vm_compute. repeat split. discriminate. Qed.

(** C2, amended. Built from a single chunk digest [d], the tree is the leaf
    of [d]: its root digest is [d] itself, it has no children (height 0),
    and neither the sentinel nor the digest primitive is used. *)
Theorem build_single (digest : list byte → outcome (list byte)) (d : YHash) :
  build digest [d] =
    Returned {| tree_type := "BMT"; chunk_hashes := [d]; tree := leaf d |}
  ∧ hash (leaf d) = d ∧ left (leaf d) = None ∧ right (leaf d) = None
  ∧ height (leaf d) = 0%nat.
Proof. repeat split. Qed.

(** ** The chunker *)

Section Chunker.

Variable file : Blob.
Variable chunkSize : Z.
Hypothesis chunkSize_pos : 0 < chunkSize.

Lemma size_nonneg : 0 ≤ size file.
Proof. unfold size. lia. Qed.

(** [Math_ceil_div] is the ceiling of the quotient. *)
Lemma Math_ceil_div_spec a :
  0 ≤ a →
  (Math_ceil_div a chunkSize - 1) * chunkSize < a ≤ Math_ceil_div a chunkSize * chunkSize.
Proof.
  intros Ha. unfold Math_ceil_div.
  pose proof (Z.div_mod (a + chunkSize - 1) chunkSize) as E.
  pose proof (Z.mod_pos_bound (a + chunkSize - 1) chunkSize chunkSize_pos) as B.
  nia.
Qed.

Lemma totalChunks_nonneg : 0 ≤ Math_ceil_div (size file) chunkSize.
Proof. pose proof (Math_ceil_div_spec _ size_nonneg). pose proof size_nonneg. nia. Qed.

Lemma slice_inside start end_ :
  0 ≤ start ≤ end_ → end_ ≤ size file →
  slice file start end_ = take (Z.to_nat (end_ - start)) (drop (Z.to_nat start) file).
Proof.
  intros H1 H2. unfold slice.
  rewrite !(proj2 (Z.ltb_ge _ 0)) by lia.
  rewrite !Z.min_l by lia. by rewrite Z.max_l by lia.
Qed.

Lemma createFileChunks_length :
  Z.of_nat (length (createFileChunks file chunkSize)) = Math_ceil_div (size file) chunkSize.
Proof.
  unfold createFileChunks. rewrite length_fmap, length_seqZ.
  pose proof totalChunks_nonneg. lia.
Qed.

Lemma chunk_range_inside index :
  0 ≤ index < Math_ceil_div (size file) chunkSize →
  let '(start, end_) := chunk_range (size file) chunkSize index in
  0 ≤ start ∧ start < end_ ∧ end_ ≤ size file.
Proof.
  intros Hi. pose proof (Math_ceil_div_spec _ size_nonneg) as Hc.
  unfold chunk_range. nia.
Qed.

Lemma createFileChunks_lookup index :
  0 ≤ index < Math_ceil_div (size file) chunkSize →
  createFileChunks file chunkSize !! Z.to_nat index =
    Some (slice file (index * chunkSize) (Z.min ((index + 1) * chunkSize) (size file))).
Proof.
  intros Hi. unfold createFileChunks.
  rewrite list_lookup_fmap, lookup_seqZ_lt by lia. simpl.
  rewrite Z2Nat.id by lia. unfold chunk_range. do 2 f_equal. lia.
Qed.

Lemma concat_first_chunks (k : nat) :
  Z.of_nat k ≤ Math_ceil_div (size file) chunkSize →
  concat ((λ index, let '(start, end_) := chunk_range (size file) chunkSize index in
                    slice file start end_) <$> seqZ 0 (Z.of_nat k))
  = take (Z.to_nat (Z.min (Z.of_nat k * chunkSize) (size file))) file.
Proof.
  induction k as [|k IH]; intros Hk.
  - by rewrite Z.min_l by (pose proof size_nonneg; lia).
  - rewrite seqZ_S, fmap_app, concat_app, IH by lia. simpl. rewrite app_nil_r.
    pose proof (chunk_range_inside (Z.of_nat k)) as Hin.
    unfold chunk_range in *. rewrite Z.add_0_l.
    rewrite slice_inside by lia.
    rewrite (Z.min_l (Z.of_nat k * chunkSize)) by lia.
    rewrite take_take_drop. f_equal. lia.
Qed.

Lemma createFileChunks_concat : concat (createFileChunks file chunkSize) = file.
Proof.
  unfold createFileChunks.
  pose proof totalChunks_nonneg as Hn.
  rewrite <- (Z2Nat.id (Math_ceil_div _ _)) by done.
  rewrite concat_first_chunks by lia.
  apply take_ge. rewrite Z2Nat.id by done.
  pose proof (Math_ceil_div_spec _ size_nonneg). unfold size in *. lia.
Qed.

End Chunker.

(** C6. For a chunk size [C > 0], [createFileChunks] cuts a file of size
    [S] into [n = ceil(S/C)] chunks (the [n] with [(n-1)*C < S <= n*C]); the
    chunk [i] holds the bytes of the range [[i*C, min((i+1)*C, S))], which
    is not empty and lies in the file; each range ends where the next one
    starts and the last one ends at [S]; the chunks put end to end are the
    file. *)
Theorem createFileChunks_partition (file : Blob) (chunkSize : Z) :
  0 < chunkSize →
  let S := size file in
  let chunks := createFileChunks file chunkSize in
  let n := Z.of_nat (length chunks) in
  (n - 1) * chunkSize < S ≤ n * chunkSize
  ∧ (∀ i, 0 ≤ i < n →
       let '(start, end_) := chunk_range S chunkSize i in
       start = i * chunkSize ∧ end_ = Z.min ((i + 1) * chunkSize) S
       ∧ 0 ≤ start < end_ ∧ end_ ≤ S
       ∧ (i + 1 < n → end_ = fst (chunk_range S chunkSize (i + 1)))
       ∧ (i + 1 = n → end_ = S)
       ∧ chunks !! Z.to_nat i
         = Some (take (Z.to_nat (end_ - start)) (drop (Z.to_nat start) file)))
  ∧ concat chunks = file.
Proof.
  intros Hpos S chunks n.
  assert (n = Math_ceil_div S chunkSize) as Hn
    by apply createFileChunks_length, Hpos.
  pose proof (Math_ceil_div_spec chunkSize Hpos S (size_nonneg file)) as Hceil.
  split; [by rewrite Hn|]. split; [|by apply createFileChunks_concat].
  intros i Hi.
  pose proof (chunk_range_inside file chunkSize Hpos i) as Hin.
  pose proof (createFileChunks_lookup file chunkSize i) as Hl.
  fold S in Hin, Hl. unfold chunk_range in *. cbn [fst].
  rewrite <- Hn in *. specialize (Hin Hi). specialize (Hl Hi).
  assert (i + 1 < n → (i + 1) * chunkSize < S) as Hinner by nia.
  assert (i + 1 = n → S ≤ (i + 1) * chunkSize) as Hlast by (intros <-; lia).
  repeat split; try lia.
  etrans; [exact Hl|]. f_equal.
  rewrite slice_inside by (fold S; lia). do 2 f_equal. lia.
Qed.

Lemma createFileChunks_partition_witness :
  let file := TextEncoder_encode "ten bytes!" in
  0 < 4 ∧
  (3 - 1) * 4 < size file ≤ 3 * 4
  ∧ createFileChunks file 4
    = [TextEncoder_encode "ten "; TextEncoder_encode "byte"; TextEncoder_encode "s!"]
  ∧ concat (createFileChunks file 4) = file.
Proof.
  intros file.
  pose proof (createFileChunks_partition file 4 eq_refl) as (Hn & _ & Hc).
  split; [reflexivity|]. split; [exact Hn|]. split; [reflexivity | exact Hc].
Defined.

(** ** Numbers *)

Lemma digits2_pos_size p : digits2_pos p = Pos.size p.
Proof. induction p; simpl; congruence. Qed.

Lemma digits2_pos_iter p k :
  digits2_pos (Pos.iter xO p k) = (digits2_pos p + k)%positive.
Proof.
  induction k as [|k IH] using Pos.peano_ind.
  - simpl. lia.
  - rewrite Pos.iter_succ. simpl. rewrite IH. lia.
Qed.

Lemma digits2_pos_bound p : Z.pos p < 2 ^ 53 → Z.pos (digits2_pos p) ≤ 53.
Proof.
  intros H. rewrite digits2_pos_size.
  pose proof (Pos.size_le p) as Hle.
  destruct (decide (Z.pos (Pos.size p) ≤ 53)) as [|Hbig]; [done|].
  assert (2 ^ 54 ≤ Z.pos (2 ^ Pos.size p)) as H54.
  { rewrite Pos2Z.inj_pow. apply Z.pow_le_mono_r; lia. }
  lia.
Qed.

(** A mantissa of 53 bits with an exponent in range is left as it is. *)
Lemma binary_round_aux_canonical s m e :
  Z.pos (digits2_pos m) = 53 → -1074 ≤ e ≤ 971 →
  binary_round_aux 53 1024 s (Z.pos m) e loc_Exact = S754_finite s m e.
Proof.
  intros Hd He. unfold binary_round_aux, shr_fexp, Zdigits2. rewrite Hd.
  replace (fexp 53 1024 (53 + e) - e) with 0 by (unfold fexp, emin; lia).
  cbn. rewrite Hd.
  replace (fexp 53 1024 (53 + e) - e) with 0 by (unfold fexp, emin; lia).
  cbn. by rewrite (proj2 (Z.leb_le e (1024 - 53))) by lia.
Qed.

(** An integer below [2^53] is a number. *)
Lemma number_of_Z_finite p :
  Z.pos p < 2 ^ 53 → ∃ m e, number_of_Z (Z.pos p) = S754_finite false m e.
Proof.
  intros Hp. pose proof (digits2_pos_bound p Hp) as Hd.
  unfold number_of_Z, binary_normalize, binary_round, shl_align.
  rewrite Z.add_0_r.
  replace (fexp 53 1024 (Z.pos (digits2_pos p))) with (Z.pos (digits2_pos p) - 53)
    by (unfold fexp, emin; lia).
  rewrite Z.sub_0_r.
  destruct (Z.pos (digits2_pos p) - 53) as [|k|k] eqn:E; [| lia |].
  - eexists _, _. apply binary_round_aux_canonical; lia.
  - eexists _, _. apply binary_round_aux_canonical; [|lia].
    rewrite digits2_pos_iter. lia.
Qed.

(** A number divided by itself is 1. *)
Lemma number_div_diag s m e :
  number_div (S754_finite s m e) (S754_finite s m e) = number_of_Z 1.
Proof.
  unfold number_div, SFdiv, SFdiv_core_binary.
  rewrite Z.sub_diag.
  replace (Z.min (fexp 53 1024 (Zdigits2 (Z.pos m) + e - (Zdigits2 (Z.pos m) + e))) 0)
    with (-53) by (rewrite Z.sub_diag; reflexivity).
  change (0 - -53) with 53.
  cbv beta iota zeta.
  rewrite Z.shiftl_mul_pow2 by lia.
  assert (Z.div_eucl (Z.pos m * 2 ^ 53) (Z.pos m) = (2 ^ 53, 0)) as ->.
  { rewrite (surjective_pairing (Z.div_eucl _ _)).
    change (Z.div_eucl ?a ?b).1 with (a / b).
    change (Z.div_eucl ?a ?b).2 with (a mod b).
    rewrite (Z.mul_comm (Z.pos m)), Z.div_mul, Z.mod_mul by lia. done. }
  cbv beta iota zeta.
  assert (new_location (Z.pos m) 0 = loc_Exact) as ->
    by (unfold new_location; destruct (Z.even _); reflexivity).
  destruct s; vm_compute; reflexivity.
Qed.

Lemma percentage_full (total : nat) :
  (0 < total)%nat → Z.of_nat total < 2 ^ 53 →
  percentage total total = number_of_Z 100.
Proof.
  intros Hpos Hsmall. unfold percentage. rewrite decide_False by lia.
  destruct (Z.of_nat total) as [|p|p] eqn:E; [lia | | lia].
  destruct (number_of_Z_finite p) as (m & e & ->); [lia|].
  rewrite number_div_diag. vm_compute. reflexivity.
Qed.

Example percentage_half_way : percentage 1 2 = number_of_Z 50.
Proof. vm_compute. reflexivity. Qed.

Example percentage_tie : percentage 1 200 = number_of_Z 1.
Proof. vm_compute. reflexivity. Qed.

(** 29/200 is the binary64 number just below 0.145, and a hundred times it
    is just below 14.5. *)
Example percentage_binary64 : percentage 29 200 = number_of_Z 14.
Proof. vm_compute. reflexivity. Qed.

(** ** The worker pool *)

Local Open Scope nat_scope.

(** [lia] with quotients and remainders by a constant. *)
Ltac Zify.zify_post_hook ::= Z.to_euclidean_division_equations.

Lemma elem_of_stride fuel total a i :
  total ≤ a + fuel →
  i ∈ stride fuel total a ↔
    a ≤ i < total ∧ (i - a) mod MAXIMUM_CONCURRENT_UPLOADS = 0.
Proof.
  unfold MAXIMUM_CONCURRENT_UPLOADS.
  revert a. induction fuel as [|fuel IH]; intros a Hfuel; cbn [stride].
  - rewrite elem_of_nil. lia.
  - destruct (decide (a < total)) as [Hlt|Hge].
    + rewrite elem_of_cons, IH by (unfold MAXIMUM_CONCURRENT_UPLOADS; lia).
      unfold MAXIMUM_CONCURRENT_UPLOADS. lia.
    + rewrite elem_of_nil. lia.
Qed.

Lemma elem_of_worker_indices total w i :
  w < MAXIMUM_CONCURRENT_UPLOADS →
  i ∈ worker_indices total w ↔ i < total ∧ i mod MAXIMUM_CONCURRENT_UPLOADS = w.
Proof.
  intros Hw. unfold worker_indices. rewrite elem_of_stride by lia.
  unfold MAXIMUM_CONCURRENT_UPLOADS in *. lia.
Qed.

Lemma requested_app l1 l2 : requested (l1 ++ l2) = requested l1 ++ requested l2.
Proof. apply omap_app. Qed.
Lemma stored_app l1 l2 : stored (l1 ++ l2) = stored l1 ++ stored l2.
Proof. apply omap_app. Qed.
Lemma failed_app l1 l2 : failed (l1 ++ l2) = failed l1 ++ failed l2.
Proof. apply omap_app. Qed.
Lemma progress_app l1 l2 : progress (l1 ++ l2) = progress l1 ++ progress l2.
Proof. apply omap_app. Qed.
Lemma registered_app l1 l2 : registered (l1 ++ l2) = registered l1 ++ registered l2.
Proof. apply omap_app. Qed.
Lemma built_app l1 l2 : built (l1 ++ l2) = built l1 ++ built l2.
Proof. apply omap_app. Qed.
Lemma acknowledged_app l1 l2 :
  acknowledged (l1 ++ l2) = acknowledged l1 ++ acknowledged l2.
Proof. apply omap_app. Qed.

Ltac read_events :=
  rewrite ?requested_app, ?stored_app, ?failed_app, ?progress_app,
    ?registered_app, ?built_app, ?acknowledged_app;
  cbn [requested stored failed progress registered built acknowledged
       omap list_omap];
  rewrite ?app_nil_r.

Section Pool.

Variable W : World.
Variable client : StorageClient.
Variable chunks : list Blob.
Variable chunkHashes : list YHash.
Variable blobRootHash : YHash.
Variable onProgress : bool.

Local Abbreviation total := (length chunks).
Local Abbreviation step := (pool_step W client chunks chunkHashes blobRootHash onProgress).
Local Abbreviation run := (pool_run W client chunks chunkHashes blobRootHash onProgress).
Local Abbreviation inv := (pool_inv total onProgress).

Lemma pool_init_inv : inv (pool_init chunks).
Proof.
  split; cbn [pool_init workers completedChunks rejection log]; try done.
  - intros w s Hl. rewrite list_lookup_fmap in Hl.
    destruct (seq 0 MAXIMUM_CONCURRENT_UPLOADS !! w) as [i|] eqn:Hi; [|done].
    apply lookup_seq in Hi as [-> Hw]. cbn in Hl. injection Hl as <-.
    unfold start_worker, MAXIMUM_CONCURRENT_UPLOADS in *.
    destruct (decide (w < total)); cbn [worker_ok log].
    + split; [by apply Nat.mod_small|]. split; [done|].
      intros j Hj. unfold MAXIMUM_CONCURRENT_UPLOADS in Hj.
      change (log (pool_init chunks)) with (@nil event).
      change (requested []) with (@nil nat). change (stored []) with (@nil nat).
      rewrite !elem_of_nil. lia.
    + intros j Hj. unfold MAXIMUM_CONCURRENT_UPLOADS in Hj.
      change (log (pool_init chunks)) with (@nil event).
      change (requested []) with (@nil nat). change (stored []) with (@nil nat).
      rewrite !elem_of_nil. lia.
  - apply NoDup_nil_2.
  - intros j Hj. by apply elem_of_nil in Hj.
  - apply NoDup_nil_2.
  - by destruct onProgress.
Qed.

(** The events of the other workers do not touch what a worker knows. *)
Lemma worker_ok_other p p' w s :
  (∀ j, j mod MAXIMUM_CONCURRENT_UPLOADS = w →
        (j ∈ requested (log p') ↔ j ∈ requested (log p))
        ∧ (j ∈ stored (log p') ↔ j ∈ stored (log p))) →
  (is_Some (rejection p) → is_Some (rejection p')) →
  worker_ok total p w s → worker_ok total p' w s.
Proof.
  intros Hlog Hrej. destruct s as [i|i| |e]; cbn [worker_ok]; [| | |done].
  - intros (Hm & Hlt & Hj). do 2 (split; [done|]).
    intros j Hjm. destruct (Hlog j Hjm) as [-> ->]. by apply Hj.
  - intros (Hm & Hlt & Hj). do 2 (split; [done|]).
    intros j Hjm. destruct (Hlog j Hjm) as [-> ->]. by apply Hj.
  - intros Hj j Hjm. destruct (Hlog j Hjm) as [-> ->]. by apply Hj.
Qed.

Lemma reject_inv p w s index e :
  inv p → workers p !! w = Some s → inv (reject w index e p).
Proof.
  intros [Hwidth Hworkers Hrn Hrb Hsn Hsr Hc Hp Hrej [Hreg Hbuilt] Hack] Hs.
  split; unfold reject; cbn [workers completedChunks rejection log]; read_events; try done.
  - by rewrite length_insert.
  - intros w' s' [(-> & <- & _)|(Hne & Hl)]%list_lookup_insert_Some.
    + cbn [worker_ok rejection]. by eexists.
    + eapply (worker_ok_other p); [| |by apply Hworkers]; cbn [log rejection].
      * intros j _. by read_events.
      * intros _. by eexists.
  - split; [done|]. intros H. by apply app_eq_nil in H as [_ ?].
Qed.

Lemma pool_step_inv p w p' : inv p → step w p = Some p' → inv p'.
Proof.
  intros Hinv Hstep. unfold pool_step in Hstep.
  destruct (workers p !! w) as [[i|i| |e]|] eqn:Hs; try done.
  - (* the worker has read the chunk and sends it *)
    destruct (chunks !! i) as [chunk|]; [|injection Hstep as <-; by eapply reject_inv].
    destruct (arrayBuffer W Uploading i chunk) as [chunkData|e|];
      [|injection Hstep as <-; by eapply reject_inv|done].
    destruct (chunkHashes !! i) as [chunkHash|];
      [|injection Hstep as <-; by eapply reject_inv].
    injection Hstep as <-.
    destruct Hinv as [Hwidth Hworkers Hrn Hrb Hsn Hsr Hc Hp Hrej [Hreg Hbuilt] Hack].
    destruct (Hworkers _ _ Hs) as (Hm & Hlt & Hj).
    split; cbn [workers completedChunks rejection log]; read_events; try done.
    + by rewrite length_insert.
    + intros w' s' [(-> & <- & _)|(Hne & Hl)]%list_lookup_insert_Some.
      * cbn [worker_ok log]. read_events. do 2 (split; [done|]).
        intros j Hjm. destruct (Hj j Hjm) as [Hr Hst]. split; [|done].
        rewrite elem_of_app, list_elem_of_singleton, Hr. lia.
      * eapply (worker_ok_other p); [| |by apply Hworkers]; cbn [log rejection]; [|done].
        intros j Hjm. read_events. split; [|done].
        rewrite elem_of_app, list_elem_of_singleton. split; [|by left].
        intros [?| ->]; [done | congruence].
    + apply NoDup_app. repeat split; [done| |apply NoDup_singleton].
      intros j Hin ->%list_elem_of_singleton. apply Hj in Hin; [lia | done].
    + intros j [?| ->%list_elem_of_singleton]%elem_of_app; [by apply Hrb | done].
    + intros j Hin. apply elem_of_app. left. by apply Hsr.
  - (* the reply has come *)
    destruct (uploadChunk W i) as [isComplete|e|];
      [|injection Hstep as <-; by eapply reject_inv|done].
    injection Hstep as <-.
    destruct Hinv as [Hwidth Hworkers Hrn Hrb Hsn Hsr Hc Hp Hrej [Hreg Hbuilt] Hack].
    destruct (Hworkers _ _ Hs) as (Hm & Hlt & Hj).
    assert (∀ l, requested (l ++ EvChunkStored i ::
              (if onProgress then [EvProgress (percentage (S (completedChunks p)) total)] else []))
            = requested l) as Ereq by (intros l; destruct onProgress; by read_events).
    assert (∀ l, stored (l ++ EvChunkStored i ::
              (if onProgress then [EvProgress (percentage (S (completedChunks p)) total)] else []))
            = stored l ++ [i]) as Esto by (intros l; destruct onProgress; by read_events).
    split; cbn [workers completedChunks rejection log]; rewrite ?Ereq, ?Esto; try done.
    + by rewrite length_insert.
    + intros w' s' [(-> & <- & _)|(Hne & Hl)]%list_lookup_insert_Some.
      * unfold start_worker, MAXIMUM_CONCURRENT_UPLOADS in *.
        destruct (decide (i + 10 < total)); cbn [worker_ok log];
          unfold MAXIMUM_CONCURRENT_UPLOADS; rewrite ?Ereq, ?Esto.
        -- split; [lia|]. split; [done|]. intros j Hjm.
           rewrite elem_of_app, list_elem_of_singleton.
           destruct (Hj j Hjm) as [-> ->]. lia.
        -- intros j Hjm. rewrite elem_of_app, list_elem_of_singleton.
           destruct (Hj j Hjm) as [-> ->]. lia.
      * eapply (worker_ok_other p); [| |by apply Hworkers]; cbn [log rejection]; [|done].
        intros j Hjm. rewrite Ereq, Esto. split; [done|].
        rewrite elem_of_app, list_elem_of_singleton. split; [|by left].
        intros [?| ->]; [done | congruence].
    + apply NoDup_app. repeat split; [done| |apply NoDup_singleton].
      intros j Hin ->%list_elem_of_singleton. apply Hj in Hin; [lia | done].
    + intros j [?| ->%list_elem_of_singleton]%elem_of_app; [by apply Hsr|].
      by apply Hj.
    + rewrite length_app. cbn [length]. lia.
    + destruct onProgress; read_events; [|done].
      rewrite Hp, seq_S, fmap_app. done.
    + by destruct onProgress; read_events.
    + by destruct onProgress; read_events.
    + rewrite imap_app, join_app, <- Hack, <- Hc.
      destruct onProgress; read_events; cbn; by rewrite ?Nat.add_0_r.
Qed.

Lemma pool_run_inv schedule p : inv p → inv (run schedule p).
Proof.
  revert p. induction schedule as [|w schedule IH]; intros p Hinv; [done|].
  simpl. apply IH. destruct (step w p) as [p'|] eqn:Hstep; [|done].
  by eapply pool_step_inv.
Qed.

Lemma all_resolved_lookup p w s :
  all_resolved p = true → workers p !! w = Some s → s = Resolved.
Proof.
  unfold all_resolved. generalize (workers p). intros l. revert w.
  induction l as [|s' l IH]; intros [|w] Hall Hl; try done;
    apply andb_prop in Hall as [Hs Hall].
  - injection Hl as ->. by destruct s.
  - by eapply IH.
Qed.

Lemma not_all_resolved p :
  all_resolved p = false → ∃ w s, workers p !! w = Some s ∧ s ≠ Resolved.
Proof.
  unfold all_resolved. generalize (workers p). intros l.
  induction l as [|s l IH]; [done|]. cbn [forallb]. intros Hall.
  destruct s as [i|i| |e]; try (by eexists 0, _).
  destruct (IH Hall) as (w & s & Hl & Hs). by exists (S w), s.
Qed.

(** When every worker is resolved, every index has been requested once,
    and stored once. *)
Lemma all_resolved_complete p :
  inv p → all_resolved p = true →
  requested (log p) ≡ₚ seq 0 total ∧ stored (log p) ≡ₚ seq 0 total.
Proof.
  intros Hinv Hall.
  assert (∀ j, j < total → j ∈ requested (log p) ∧ j ∈ stored (log p)) as Hin.
  { intros j Hj.
    destruct (lookup_lt_is_Some_2 (workers p) (j mod MAXIMUM_CONCURRENT_UPLOADS))
      as [s Hs].
    { rewrite (inv_width _ _ _ Hinv). unfold MAXIMUM_CONCURRENT_UPLOADS. lia. }
    pose proof (inv_workers _ _ _ Hinv _ _ Hs) as Hok.
    rewrite (all_resolved_lookup _ _ _ Hall Hs) in Hok.
    destruct (Hok j eq_refl) as [Hr Hst]. split; [by apply Hr | by apply Hst]. }
  split; apply NoDup_Permutation; try apply NoDup_seq; try apply Hinv.
  - intros j. rewrite elem_of_seq. split; [|intros ?; apply Hin; lia].
    intros ?%(inv_requested_bound _ _ _ Hinv). lia.
  - intros j. rewrite elem_of_seq. split; [|intros ?; apply Hin; lia].
    intros ?%(inv_stored_requested _ _ _ Hinv)%(inv_requested_bound _ _ _ Hinv). lia.
Qed.

(** A request that a step of the worker [w] adds is for an index of the
    stride of [w]. *)
Lemma pool_step_requests p w p' i :
  inv p → step w p = Some p' →
  i ∈ requested (log p') → i ∉ requested (log p) →
  w < MAXIMUM_CONCURRENT_UPLOADS ∧ i ∈ worker_indices total w.
Proof.
  intros Hinv Hstep Hnew Hold. unfold pool_step in Hstep.
  destruct (workers p !! w) as [s|] eqn:Hs; [|done].
  assert (w < MAXIMUM_CONCURRENT_UPLOADS) as Hw.
  { rewrite <- (inv_width _ _ _ Hinv). by eapply lookup_lt_Some. }
  pose proof (inv_workers _ _ _ Hinv _ _ Hs) as Hok.
  split; [done|]. apply elem_of_worker_indices; [done|].
  destruct s as [k|k| |e]; try done.
  - destruct Hok as (Hm & Hlt & _).
    assert (i = k) as ->; [|done].
    destruct (chunks !! k) as [chunk|];
      [|injection Hstep as <-; revert Hnew; unfold reject; cbn [log]; by read_events].
    destruct (arrayBuffer W Uploading k chunk) as [chunkData|e|];
      [|injection Hstep as <-; revert Hnew; unfold reject; cbn [log]; by read_events|done].
    destruct (chunkHashes !! k) as [chunkHash|];
      [|injection Hstep as <-; revert Hnew; unfold reject; cbn [log]; by read_events].
    injection Hstep as <-. revert Hnew. cbn [log]. read_events.
    rewrite elem_of_app, list_elem_of_singleton. by intros [?|?].
  - exfalso. apply Hold.
    destruct (uploadChunk W k) as [isComplete|e|]; [| |done];
      injection Hstep as <-; revert Hnew; unfold reject; cbn [log];
      destruct onProgress; by read_events.
Qed.

(** *** Completion *)

Lemma sum_list_with_insert_lt {A} (f : A → nat) (l : list A) w s s' :
  l !! w = Some s → f s' < f s →
  sum_list_with f (<[w:=s']> l) < sum_list_with f l.
Proof.
  revert w. induction l as [|x l IH]; intros [|w] Hl Hf; try done; simpl in *.
  - injection Hl as ->. lia.
  - specialize (IH w Hl Hf). lia.
Qed.

Hypothesis world_good : uploads_succeed W total.
Hypothesis hashes_present : total ≤ length chunkHashes.

Lemma pool_step_good p w s :
  inv p → rejection p = None → workers p !! w = Some s → s ≠ Resolved →
  ∃ p', step w p = Some p' ∧ rejection p' = None ∧ pool_steps total p' < pool_steps total p.
Proof.
  intros Hinv Hrej Hs Hne. pose proof (inv_workers _ _ _ Hinv _ _ Hs) as Hok.
  unfold pool_step. rewrite Hs. destruct s as [i|i| |e]; [| |done|].
  - destruct Hok as (Hm & Hlt & _).
    destruct (lookup_lt_is_Some_2 chunks i Hlt) as [chunk ->].
    destruct (lookup_lt_is_Some_2 chunkHashes i) as [chunkHash ->]; [lia|].
    destruct (world_good i Hlt) as [Hread _].
    unfold arrayBuffer. rewrite Hread.
    eexists. split; [done|]. split; [done|].
    unfold pool_steps. cbn [workers].
    eapply sum_list_with_insert_lt; [done|]. cbn [worker_steps]. lia.
  - destruct Hok as (Hm & Hlt & _).
    destruct (world_good i Hlt) as [_ [status Hput]].
    unfold uploadChunk. rewrite Hput.
    eexists. split; [done|]. split; [done|].
    unfold pool_steps. cbn [workers].
    eapply sum_list_with_insert_lt; [done|].
    unfold start_worker, MAXIMUM_CONCURRENT_UPLOADS.
    destruct (decide (i + 10 < total)); cbn [worker_steps]; lia.
  - cbn [worker_ok] in Hok. rewrite Hrej in Hok. by destruct Hok.
Qed.

Lemma pool_step_keeps_good p w p' :
  inv p → rejection p = None → step w p = Some p' → rejection p' = None.
Proof.
  intros Hinv Hrej Hstep.
  destruct (workers p !! w) as [s|] eqn:Hs;
    [|unfold pool_step in Hstep; by rewrite Hs in Hstep].
  assert (s ≠ Resolved) as Hne
    by (intros ->; unfold pool_step in Hstep; by rewrite Hs in Hstep).
  destruct (pool_step_good p w s Hinv Hrej Hs Hne) as (p'' & Hstep' & Hrej' & _).
  congruence.
Qed.

Lemma pool_run_good schedule p :
  inv p → rejection p = None → rejection (run schedule p) = None.
Proof.
  revert p. induction schedule as [|w schedule IH]; intros p Hinv Hrej; [done|].
  cbn [pool_run foldl]. destruct (step w p) as [p'|] eqn:Hstep; cbn [default].
  - apply IH; [by eapply pool_step_inv | by eapply pool_step_keeps_good].
  - by apply IH.
Qed.

(** Whatever has been done, the upload can be brought to its end. *)
Lemma pool_completes p :
  inv p → rejection p = None →
  ∃ rest, all_resolved (run rest p) = true ∧ rejection (run rest p) = None.
Proof.
  remember (pool_steps total p) as k eqn:Hk. revert p Hk.
  induction k as [k IH] using lt_wf_ind. intros p -> Hinv Hrej.
  destruct (all_resolved p) eqn:Hall; [by exists []|].
  destruct (not_all_resolved p Hall) as (w & s & Hs & Hne).
  destruct (pool_step_good p w s Hinv Hrej Hs Hne) as (p' & Hstep & Hrej' & Hlt).
  destruct (IH _ Hlt p' eq_refl) as (rest & Hdone);
    [by eapply pool_step_inv | done |].
  exists (w :: rest). cbn [pool_run foldl]. by rewrite Hstep.
Qed.

End Pool.

(** C3. The ten workers of [parallelUpload] share the chunk indices out:
    the worker [w] visits the indices below the number of chunks that are
    [w] modulo 10, and every index below that number is in the stride of
    exactly one worker. However the workers are scheduled, no index is
    requested twice, none is out of range, a request that a step of the
    worker [w] sends is for an index of its stride, and once every worker
    is resolved the requests (and the acknowledged chunks) are the indices
    [0 .. n-1], each once. When no chunk upload fails, what has been done
    can always be continued to that end. *)
Theorem parallelUpload_partition (W : World) (client : StorageClient)
    (chunks : list Blob) (chunkHashes : list YHash) (blobRootHash : YHash)
    (onProgress : bool) (schedule : list nat) :
  let total := length chunks in
  let step := pool_step W client chunks chunkHashes blobRootHash onProgress in
  let run := pool_run W client chunks chunkHashes blobRootHash onProgress in
  let p := run schedule (pool_init chunks) in
  (∀ w i, w < MAXIMUM_CONCURRENT_UPLOADS →
     i ∈ worker_indices total w ↔ i < total ∧ i mod MAXIMUM_CONCURRENT_UPLOADS = w)
  ∧ (∀ i, i < total →
       ∃ w, w < MAXIMUM_CONCURRENT_UPLOADS ∧ i ∈ worker_indices total w
            ∧ ∀ w', w' < MAXIMUM_CONCURRENT_UPLOADS →
                    i ∈ worker_indices total w' → w' = w)
  ∧ NoDup (requested (log p))
  ∧ (∀ i, i ∈ requested (log p) → i < total)
  ∧ (∀ w p' i, step w p = Some p' →
       i ∈ requested (log p') → i ∉ requested (log p) →
       w < MAXIMUM_CONCURRENT_UPLOADS ∧ i ∈ worker_indices total w)
  ∧ (all_resolved p = true →
     requested (log p) ≡ₚ seq 0 total ∧ stored (log p) ≡ₚ seq 0 total)
  ∧ (uploads_succeed W total → total ≤ length chunkHashes →
     ∃ rest, all_resolved (run (schedule ++ rest) (pool_init chunks)) = true).
Proof.
  intros total step run p.
  assert (pool_inv total onProgress p) as Hinv
    by apply pool_run_inv, pool_init_inv.
  split; [intros w i Hw; by apply elem_of_worker_indices|].
  split.
  { intros i Hi. exists (i mod MAXIMUM_CONCURRENT_UPLOADS).
    assert (i mod MAXIMUM_CONCURRENT_UPLOADS < MAXIMUM_CONCURRENT_UPLOADS) as Hw
      by (unfold MAXIMUM_CONCURRENT_UPLOADS; lia).
    split; [done|]. split; [by apply elem_of_worker_indices|].
    intros w' Hw' Hin. by apply elem_of_worker_indices in Hin as [_ <-]. }
  split; [apply Hinv|]. split; [apply Hinv|].
  split; [intros w p' i Hstep; by eapply pool_step_requests|].
  split; [intros Hall; exact (all_resolved_complete _ _ _ Hinv Hall)|].
  intros Hgood Hhashes.
  destruct (pool_completes W client chunks chunkHashes blobRootHash onProgress
              Hgood Hhashes p Hinv) as (rest & Hdone & _).
  { apply pool_run_good; [done.. | apply pool_init_inv | done]. }
  exists rest. unfold run, pool_run. by rewrite foldl_app.
Qed.

(** Twenty-three chunks, the workers resumed from the last to the first:
    the requests are the indices 0 to 22, each once. *)
Lemma parallelUpload_partition_witness :
  let p := pool_run (sample_world []) sample_client (sample_chunks 23)
             (replicate 23 abc_digest) abc_digest true
             (reverse (round_robin 6)) (pool_init (sample_chunks 23)) in
  all_resolved p = true
  ∧ worker_indices 23 2 = [2; 12; 22]
  ∧ requested (log p) ≡ₚ seq 0 23 ∧ stored (log p) ≡ₚ seq 0 23.
Proof.
  intros p.
  pose proof (parallelUpload_partition (sample_world []) sample_client
                (sample_chunks 23) (replicate 23 abc_digest) abc_digest true
                (reverse (round_robin 6))) as (_ & _ & _ & _ & _ & Hall & _).
  split; [vm_compute; reflexivity|]. split; [reflexivity|].
  apply Hall. vm_compute. reflexivity.
Defined.

Lemma last_percentages total k :
  0 < k → last ((λ k, percentage k total) <$> seq 1 k) = Some (percentage k total).
Proof.
  intros Hk. destruct k as [|k]; [lia|].
  rewrite seq_S, fmap_app. change (?f <$> [?x]) with [f x]. by rewrite last_snoc.
Qed.

(** ** putFile *)

Section PutFile.

Variable W : World.
Variable client : StorageClient.

Lemma processFileForUpload_events file :
  (∃ chunkHashes blobHashTree,
      processFileForUpload W file =
        ([EvBuild chunkHashes],
         Returned (createFileChunks file defaultChunkSize, chunkHashes, blobHashTree))
      ∧ build (subtle_digest W) chunkHashes = Returned blobHashTree)
  ∨ (∃ l, (processFileForUpload W file).1 = l ∧ registered l = []
          ∧ ∀ v, (processFileForUpload W file).2 ≠ Returned v).
Proof.
  unfold processFileForUpload.
  destruct (hash_chunks W 0 (createFileChunks file defaultChunkSize))
    as [chunkHashes|e|] eqn:Hh; cbn; [|right; by eexists..].
  destruct (build (subtle_digest W) chunkHashes) as [t|e|] eqn:Hb; cbn;
    [left; by eexists _, _ | right; by eexists..].
Qed.

Lemma registered_split pre post p h :
  registered (pre ++ EvRegister p h :: post) ≠ [].
Proof. read_events. by destruct (registered pre). Qed.

Lemma register_split (a b pre post : list event) p0 h0 p h :
  registered a = [] → registered b = [] →
  a ++ EvRegister p0 h0 :: b = pre ++ EvRegister p h :: post →
  pre = a ∧ p = p0 ∧ h = h0 ∧ post = b.
Proof.
  revert pre. induction a as [|x a IH]; intros [|y pre] Ha Hb E.
  - by injection E as <- <- <-.
  - injection E as <- ->. by apply registered_split in Hb.
  - injection E as -> E. discriminate Ha.
  - injection E as <- E. destruct (IH pre) as (-> & -> & -> & ->); try done.
    revert Ha. unfold registered. cbn. by destruct x.
Qed.

(** Either nothing was registered, or every stage before the registration
    returned and the events are those of the stages, in their order. *)
Lemma putFile_events schedule onProgress path file :
  registered (putFile W client schedule onProgress path file).1 = []
  ∨ ∃ chunkHashes blobHashTree tail,
      let chunks := createFileChunks file defaultChunkSize in
      let root := hash (tree blobHashTree) in
      let p := pool_run W client chunks chunkHashes root onProgress schedule
                 (pool_init chunks) in
      processFileForUpload W file =
        ([EvBuild chunkHashes], Returned (chunks, chunkHashes, blobHashTree))
      ∧ (uploadBlobTree W blobHashTree (bucket client) (size file) (owner client)).2
        = Returned tt
      ∧ rejection p = None ∧ all_resolved p = true
      ∧ (tail = [] ∨ tail = [EvGetFileReference path])
      ∧ (putFile W client schedule onProgress path file).1 =
          ([EvBuild chunkHashes]
           ++ (uploadBlobTree W blobHashTree (bucket client) (size file) (owner client)).1
           ++ log p)
          ++ EvRegister path (toShaString root) :: tail.
Proof.
  unfold putFile. destruct (decide (path = "")) as [|Hpath]; [by left|].
  destruct (processFileForUpload_events file)
    as [(chunkHashes & t & Hp & Hb)|(l & Hl & Hreg & Hnot)].
  2:{ left. destruct (processFileForUpload W file) as [l' [v|e|]]; cbn in *;
        [by destruct (Hnot v) | by subst..]. }
  rewrite Hp. cbn [mbind action_bind].
  destruct (uploadBlobTree W t (bucket client) (size file) (owner client))
    as [lb rb] eqn:Hub.
  assert (registered lb = []) as Hlb.
  { unfold uploadBlobTree in Hub. cbn in Hub.
    destruct (put_blob_tree W _ _ _ _); injection Hub as <- _; done. }
  destruct rb as [[]|e|]; cbn [mbind action_bind]; [|left; by read_events..].
  unfold parallelUpload.
  set (p := pool_run W client _ chunkHashes (hash (tree t)) onProgress schedule _).
  assert (pool_inv (length (createFileChunks file defaultChunkSize)) onProgress p)
    as Hinv by apply pool_run_inv, pool_init_inv.
  destruct (inv_only_chunk_events _ _ _ Hinv) as [Hlp _].
  destruct (rejection p) as [e|] eqn:Hrej;
    [left; cbn [mbind action_bind fst]; read_events; by rewrite Hlb, Hlp|].
  destruct (all_resolved p) eqn:Hall;
    [|left; cbn [mbind action_bind fst]; read_events; by rewrite Hlb, Hlp].
  right. exists chunkHashes, t. rewrite Hub. cbn [fst snd].
  cbn [mbind action_bind emit silently].
  destruct (registerFileReference W path (toShaString (hash (tree t)))) as [[]|e|];
    cbn [mbind action_bind fst].
  2,3: exists []; repeat split; try done;
    first [by left | by rewrite <- !app_assoc].
  unfold getDirectURL. rewrite decide_False by done.
  cbn [mbind action_bind emit silently].
  destruct (getFileReference W path) as [ref|e|]; cbn [mbind action_bind mret action_ret fst];
    exists [EvGetFileReference path]; repeat split; try done;
    first [by right | by rewrite <- !app_assoc].
Qed.

Lemma uploadBlobTree_events t b s o :
  (uploadBlobTree W t b s o).1 = [EvPutBlobTree (toJSON t) b s o].
Proof. reflexivity. Qed.

End PutFile.

(** C5. Whatever the collaborators answer and however the workers are
    scheduled: when [putFile] calls [registerFileReference], it does so
    with the path and the tagged root digest, once, after chunking, hashing
    and building returned, after the gateway accepted the tree, and after
    every chunk was requested and acknowledged, no chunk upload having
    failed; nothing is sent to the gateway afterwards. So when chunking,
    hashing or building does not return, when the tree registration does
    not, or when a chunk upload fails, [registerFileReference] is not
    called. *)
Theorem putFile_registers_after_uploads (W : World) (client : StorageClient)
    (schedule : list nat) (onProgress : bool) (path : string) (file : Blob) :
  let events := (putFile W client schedule onProgress path file).1 in
  let chunks := createFileChunks file defaultChunkSize in
  (∀ pre p h post, events = pre ++ EvRegister p h :: post →
     ∃ chunkHashes blobHashTree,
       (processFileForUpload W file).2 = Returned (chunks, chunkHashes, blobHashTree)
       ∧ (uploadBlobTree W blobHashTree (bucket client) (size file) (owner client)).2
         = Returned tt
       ∧ requested pre ≡ₚ seq 0 (length chunks)
       ∧ stored pre ≡ₚ seq 0 (length chunks)
       ∧ failed events = []
       ∧ p = path ∧ h = toShaString (hash (tree blobHashTree))
       ∧ registered pre = [] ∧ registered post = [] ∧ requested post = [])
  ∧ ((∀ v, (processFileForUpload W file).2 ≠ Returned v) → registered events = [])
  ∧ (∀ v, (processFileForUpload W file).2 = Returned v →
       (uploadBlobTree W v.2 (bucket client) (size file) (owner client)).2 ≠ Returned tt →
       registered events = [])
  ∧ (failed events ≠ [] → registered events = []).
Proof.
  intros events chunks.
  destruct (putFile_events W client schedule onProgress path file)
    as [Hnone|(chunkHashes & t & tail & Hp & Hub & Hrej & Hall & Htail & Hev)].
  { fold events in Hnone. split; [|done].
    intros pre p h post E. rewrite E in Hnone. by apply registered_split in Hnone. }
  fold events chunks in Hev. cbv zeta in *. fold chunks in Hp, Hrej, Hall, Hev.
  set (p := pool_run W client chunks chunkHashes (hash (tree t)) onProgress schedule
              (pool_init chunks)) in *.
  assert (pool_inv (length chunks) onProgress p) as Hinv
    by apply pool_run_inv, pool_init_inv.
  destruct (all_resolved_complete _ _ _ Hinv Hall) as [Hreq Hsto].
  destruct (inv_only_chunk_events _ _ _ Hinv) as [Hlp _].
  pose proof (proj1 (inv_rejection _ _ _ Hinv) Hrej) as Hfailed.
  rewrite uploadBlobTree_events in Hev.
  assert (failed events = []) as Hnofail
    by (rewrite Hev, !failed_app;
        change (failed (EvRegister ?a ?b :: ?l)) with (failed l);
        rewrite Hfailed; by destruct Htail as [-> | ->]).
  split; [|split; [|split]].
  - intros pre p0 h post E. rewrite Hev in E.
    apply register_split in E as (-> & -> & -> & ->);
      [|by read_events|by destruct Htail as [-> | ->]].
    exists chunkHashes, t. rewrite Hp. read_events.
    repeat split; try done; by destruct Htail as [-> | ->].
  - intros Hnot. rewrite Hp in Hnot. by destruct (Hnot (chunks, chunkHashes, t)).
  - intros v Hv Hne. rewrite Hp in Hv. injection Hv as <-. destruct Hne. exact Hub.
  - by rewrite Hnofail.
Qed.

(** A file of one chunk that the gateway stores: the reference is
    registered after the chunk was acknowledged. *)
Example putFile_success :
  let events := (putFile (sample_world []) sample_client (round_robin 2) true
                   "cat.png" (TextEncoder_encode "hello")).1 in
  requested events = [0] ∧ stored events = [0] ∧ failed events = []
  ∧ registered events =
      [("cat.png",
        "sha256:2cf24dba5fb0a30e26e83b2ac5b9e29e1b161e5c1fa7425e73043362938b9824")].
Proof. vm_compute. done. Qed.

(** A file of one chunk that the gateway refuses: [putFile] throws what
    [uploadChunk] threw and registers nothing. *)
Example putFile_chunk_refused :
  putFile (sample_world [0]) sample_client (round_robin 2) true
    "cat.png" (TextEncoder_encode "hello")
  = ([EvBuild [{| bytes := SHA256.sha256 (TextEncoder_encode "hello") |}];
      EvPutBlobTree
        (toJSON {| tree_type := "BMT";
                   chunk_hashes := [{| bytes := SHA256.sha256 (TextEncoder_encode "hello") |}];
                   tree := leaf {| bytes := SHA256.sha256 (TextEncoder_encode "hello") |} |})
        "images" 5 "owner-1";
      EvPutChunk
        "sha256:2cf24dba5fb0a30e26e83b2ac5b9e29e1b161e5c1fa7425e73043362938b9824"
        "sha256:2cf24dba5fb0a30e26e83b2ac5b9e29e1b161e5c1fa7425e73043362938b9824"
        0 (TextEncoder_encode "hello") "images" "owner-1";
      EvChunkFailed 0 (ChunkUploadFailed 0 500 "Internal Server Error" "chunk refused")],
     Threw (ChunkUploadFailed 0 500 "Internal Server Error" "chunk refused")).
Proof. vm_compute. reflexivity. Qed.

(** Five chunks of which the gateway refuses the chunk 2: the pool rejects
    with the error of that chunk while the other workers go on. *)
Example parallelUpload_chunk_2_of_5_refused :
  let '(events, result) :=
    parallelUpload (sample_world [2]) sample_client (sample_chunks 5)
      (replicate 5 abc_digest) abc_digest true (round_robin 2) in
  result = Threw (ChunkUploadFailed 2 500 "Internal Server Error" "chunk refused")
  ∧ requested events = [0; 1; 2; 3; 4] ∧ stored events = [0; 1; 3; 4]
  ∧ failed events = [2].
Proof. vm_compute. done. Qed.

(** C4, as the specification states it, fails: for a file of no bytes
    [putFile] calls the tree builder, with no chunk digest, and what it
    throws is what the builder throws. *)
Lemma putFile_empty_file_calls_build :
  putFile (sample_world []) sample_client (round_robin 1) true "cat.png" []
  = ([EvBuild []], Threw EmptyChunks)
  ∧ built (putFile (sample_world []) sample_client (round_robin 1) true "cat.png" []).1
    = [[]]
  ∧ build crypto_digest [] = Threw EmptyChunks.
Proof. vm_compute. done. Qed.

(** C4, amended. For a file of no bytes and a path that is not empty,
    [putFile] fails before anything is sent to the gateway or the registry:
    there is no chunk, the tree builder is called with no chunk digest, and
    [putFile] throws the builder's "Cannot build hash tree from empty
    chunks". *)
Theorem putFile_empty_file (W : World) (client : StorageClient)
    (schedule : list nat) (onProgress : bool) (path : string) (file : Blob) :
  path ≠ "" → size file = 0%Z →
  createFileChunks file defaultChunkSize = []
  ∧ putFile W client schedule onProgress path file = ([EvBuild []], Threw EmptyChunks)
  ∧ build (subtle_digest W) [] = Threw EmptyChunks.
Proof.
  intros Hpath Hsize.
  assert (file = []) as -> by (destruct file; [done | unfold size in Hsize; simpl in Hsize; lia]).
  unfold putFile. rewrite decide_False by done. done.
Qed.

Lemma putFile_empty_file_witness :
  "cat.png" ≠ "" ∧ size [] = 0%Z
  ∧ putFile (sample_world []) sample_client [] false "cat.png" []
    = ([EvBuild []], Threw EmptyChunks).
Proof.
  split; [done|]. split; [done|].
  apply (putFile_empty_file (sample_world []) sample_client [] false "cat.png" []); done.
Defined.

(** ** More on digests *)

Lemma new_YHash_Returned bs h :
  new_YHash bs = Returned h → bytes h = bs ∧ length bs = 32.
Proof.
  unfold new_YHash. destruct (decide (length bs = 32)); [|done].
  by intros [= <-].
Qed.

Lemma fromBytes_Returned digest data h :
  fromBytes digest data = Returned h →
  digest data = Returned (bytes h) ∧ length (bytes h) = 32.
Proof.
  unfold fromBytes. destruct (digest data) as [out|e|]; cbn; [|done..].
  by intros [-> ?]%new_YHash_Returned.
Qed.

(** X1. A YHash is always 32 bytes long: whichever way the module makes
    one (from a digest, from a hexadecimal string, from a tagged string),
    what it returns has exactly 32 bytes. *)
Theorem YHash_is_32_bytes (digest : list byte → outcome (list byte))
    (data : list byte) (s : string) (h : YHash) :
  fromBytes digest data = Returned h ∨ fromHex s = Returned h
    ∨ fromShaString s = Returned h →
  length (bytes h) = 32.
Proof.
  intros [H|[H|H]].
  - by apply fromBytes_Returned in H as [_ ?].
  - unfold fromHex in H. destruct (match_all s); [|done].
    by apply new_YHash_Returned in H as [-> ?].
  - unfold fromShaString, fromHex in H. destruct (match_all _); [|done].
    by apply new_YHash_Returned in H as [-> ?].
Qed.

Lemma YHash_is_32_bytes_witness : length (bytes abc_digest) = 32.
Proof.
  apply (YHash_is_32_bytes crypto_digest (TextEncoder_encode "abc") "" abc_digest).
  left. vm_compute. reflexivity.
Defined.

Lemma lower_pair_ok_all b : lower_pair_ok b = true.
Proof. destruct b; vm_compute; reflexivity. Qed.

Lemma hex_pair_lower b :
  ∃ c1 c2, padStart2 (toString16 b) = String c1 (String c2 EmptyString)
    ∧ is_lower_hex_digit c1 = true ∧ is_lower_hex_digit c2 = true.
Proof.
  destruct (hex_pair b) as (c1 & c2 & E & _). exists c1, c2. split; [done|].
  revert E. generalize (lower_pair_ok_all b). unfold lower_pair_ok.
  intros H E. rewrite E in H. by apply andb_prop in H.
Qed.

Lemma all_chars_append P s t :
  all_chars P (s +:+ t) = all_chars P s && all_chars P t.
Proof.
  unfold all_chars. induction s as [|c s IH]; [done|].
  rewrite append_cons. cbn. by rewrite IH, andb_assoc.
Qed.

Lemma length_append (s t : string) :
  String.length (s +:+ t) = String.length s + String.length t.
Proof. induction s as [|c s IH]; [done|]. rewrite append_cons. cbn. by rewrite IH. Qed.

(** X2. The hexadecimal form of a YHash has two characters for each byte,
    all of them digits or lowercase letters [a] to [f]; the tagged form of a
    YHash of 32 bytes is therefore [sha256:] followed by 64 such characters,
    71 in all. *)
Theorem toHex_shape (h : YHash) :
  String.length (toHex h) = 2 * length (bytes h)
  ∧ all_chars is_lower_hex_digit (toHex h) = true
  ∧ String.length (toShaString h) = 7 + 2 * length (bytes h)
  ∧ has_tag (toShaString h) = true.
Proof.
  destruct h as [bs]. unfold toShaString, toHex. cbn [bytes].
  assert (String.length (String.concat "" ((λ b, padStart2 (toString16 b)) <$> bs))
          = 2 * length bs
          ∧ all_chars is_lower_hex_digit
              (String.concat "" ((λ b, padStart2 (toString16 b)) <$> bs)) = true)
    as [Hlen Hall].
  { induction bs as [|b bs [IH1 IH2]]; [done|].
    rewrite fmap_cons, concat_cons, length_append, all_chars_append, IH1, IH2.
    destruct (hex_pair_lower b) as (c1 & c2 & -> & H1 & H2).
    split; [cbn; lia|]. unfold all_chars. cbn. by rewrite H1, H2. }
  repeat split; try done.
  - by rewrite length_append, Hlen.
  - unfold has_tag. by destruct (String.concat _ _).
Qed.

Lemma is_hex_digit_listed c :
  implb (is_hex_digit c) (existsb (Ascii.eqb c) hex_digits) = true.
Proof. destruct c as [[] [] [] [] [] [] [] []]; vm_compute; reflexivity. Qed.

Lemma is_hex_digit_in c : is_hex_digit c = true → In c hex_digits.
Proof.
  intros H. pose proof (is_hex_digit_listed c) as Hl. rewrite H in Hl.
  cbn [implb] in Hl. apply existsb_exists in Hl as (c' & Hin & Heq).
  by apply Ascii.eqb_eq in Heq as ->.
Qed.

Lemma hex_digits_ok_all :
  forallb (λ c1, forallb (hex_digits_ok c1) hex_digits) hex_digits = true.
Proof. vm_compute. reflexivity. Qed.

Lemma hex_digits_pair c1 c2 :
  is_hex_digit c1 = true → is_hex_digit c2 = true →
  is_line_terminator c1 = false ∧ is_line_terminator c2 = false
  ∧ padStart2 (toString16 (to_uint8 (parseInt16 (String c1 (String c2 EmptyString)))))
    = String (lower_hex_digit c1) (String (lower_hex_digit c2) EmptyString).
Proof.
  intros H1%is_hex_digit_in H2%is_hex_digit_in.
  pose proof hex_digits_ok_all as Hall.
  rewrite forallb_forall in Hall. specialize (Hall c1 H1).
  rewrite forallb_forall in Hall. specialize (Hall c2 H2).
  unfold hex_digits_ok in Hall.
  apply andb_prop in Hall as [[Ha Hb]%andb_prop Hc].
  apply negb_true_iff in Ha, Hb. by apply String.eqb_eq in Hc.
Qed.

(** A string of hexadecimal digits, an even number of them, is read two
    by two, and written back in lowercase. *)
Lemma toHex_match_pairs s :
  all_chars is_hex_digit s = true → Nat.even (String.length s) = true →
  length (match_pairs s) = String.length s / 2
  ∧ String.concat ""
      ((λ b, padStart2 (toString16 b)) <$>
         ((λ g, to_uint8 (parseInt16 g)) <$> match_pairs s))
    = lower_hex s.
Proof.
  induction s as [|c|c1 c2 s IH] using string_pair_ind; unfold all_chars.
  - done.
  - done.
  - cbn [list_ascii_of_string forallb String.length].
    intros [H1 [H2 Hs]%andb_prop]%andb_prop Heven.
    destruct (hex_digits_pair c1 c2 H1 H2) as (Ht1 & Ht2 & Hpair).
    destruct (IH Hs) as [IHlen IHstr]; [done|].
    cbn [match_pairs]. rewrite Ht1, Ht2, !fmap_cons, concat_cons, Hpair, IHstr.
    cbn [length]. rewrite IHlen. split; [lia | done].
Qed.

(** X3. The other round trip: a string of 64 hexadecimal digits, in
    either case, is parsed into a YHash whose hexadecimal form is the string
    in lowercase; so parsing ignores the case and a lowercase string comes
    back unchanged. *)
Theorem toHex_fromHex (s : string) :
  all_chars is_hex_digit s = true → String.length s = 64 →
  ∃ h, fromHex s = Returned h ∧ toHex h = lower_hex s
       ∧ fromShaString ("sha256:" +:+ s) = Returned h
       ∧ toShaString h = "sha256:" +:+ lower_hex s.
Proof.
  intros Hhex Hlen.
  destruct (toHex_match_pairs s Hhex) as [Hgroups Hback]; [by rewrite Hlen|].
  rewrite Hlen in Hgroups. change (64 / 2) with 32 in Hgroups.
  exists {| bytes := (λ g, to_uint8 (parseInt16 g)) <$> match_pairs s |}.
  assert (fromHex s =
          Returned {| bytes := (λ g, to_uint8 (parseInt16 g)) <$> match_pairs s |})
    as Hfrom.
  { unfold fromHex, match_all.
    destruct (match_pairs s) as [|g gs] eqn:E; [done|].
    apply new_YHash_32. by rewrite length_fmap. }
  unfold fromShaString, toShaString. rewrite replace_tag.
  repeat split; try done. unfold toHex. cbn [bytes]. by rewrite Hback.
Qed.

Lemma toHex_fromHex_witness :
  ∃ h, fromHex "BA7816BF8F01CFEA414140DE5DAE2223B00361A396177A9CB410FF61F20015AD"
       = Returned h
       ∧ toHex h = "ba7816bf8f01cfea414140de5dae2223b00361a396177a9cb410ff61f20015ad".
Proof.
  destruct (toHex_fromHex
              "BA7816BF8F01CFEA414140DE5DAE2223B00361A396177A9CB410FF61F20015AD")
    as (h & H1 & H2 & _); [reflexivity | reflexivity |].
  exists h. split; [exact H1 | exact H2].
Defined.

Lemma toHex_inj bs1 bs2 :
  toHex {| bytes := bs1 |} = toHex {| bytes := bs2 |} → bs1 = bs2.
Proof.
  intros H.
  rewrite <- (parse_pairs_toHex bs1), <- (parse_pairs_toHex bs2).
  by rewrite <- !match_pairs_toHex, H.
Qed.

Lemma toShaString_hex_inj (h1 h2 : YHash) :
  toShaString h1 = toShaString h2 ∨ toHex h1 = toHex h2 → h1 = h2.
Proof.
  destruct h1 as [bs1], h2 as [bs2]. intros [H|H].
  - f_equal. apply toHex_inj.
    rewrite <- (replace_tag (toHex {| bytes := bs1 |})),
            <- (replace_tag (toHex {| bytes := bs2 |})).
    unfold toShaString in H. by rewrite H.
  - f_equal. by apply toHex_inj.
Qed.

(** X4. Two YHash values with the same tagged string (or the same
    hexadecimal form) are the same YHash, whatever their lengths: the
    string under which a blob is stored determines its digest. *)
Theorem toShaString_inj (h1 h2 : YHash) :
  toShaString h1 = toShaString h2 ∨ toHex h1 = toHex h2 → h1 = h2.
Proof. apply toShaString_hex_inj. Qed.

Lemma toShaString_inj_witness :
  abc_digest = {| bytes := SHA256.sha256 (TextEncoder_encode "abc") |}.
Proof.
  apply toShaString_inj. left. reflexivity.
Defined.

(** ** More on the hash tree *)

Lemma nextLevel_length digest level next :
  nextLevel digest level = Returned next →
  length next = Nat.div2 (S (length level)).
Proof.
  revert next. induction level as [|l|l r rest IH] using list_pair_ind; intros next.
  - by intros [= <-].
  - cbn [nextLevel]. destruct (fromBytes digest _); cbn; [|done..]. by intros [= <-].
  - cbn [nextLevel]. destruct (fromBytes digest _); cbn; [|done..].
    destruct (nextLevel digest rest) as [parents|e|]; cbn; [|done..].
    intros [= <-]. cbn [length Nat.div2]. by rewrite (IH parents).
Qed.

(** What every pass of the loop keeps is kept by the loop. *)
Lemma while_level_invariant digest (I : nat → list TreeNode → Prop) fuel level j result :
  (∀ j level next, I j level → 1 < length level →
     nextLevel digest level = Returned next → I (S j) next) →
  I j level → while_level digest fuel level = Returned result →
  ∃ j', I j' result ∧ length result ≤ 1.
Proof.
  intros Hstep. revert level j. induction fuel as [|fuel IH]; intros level j HI;
    cbn [while_level]; destruct (decide (1 < length level)) as [Hlong|Hshort];
    try done; try (intros [= <-]; exists j; split; [done | lia]).
  destruct (nextLevel digest level) as [next|e|] eqn:Hn; cbn; [|done..].
  by apply (IH next (S j)), (Hstep j level).
Qed.

Lemma build_Returned digest chunkHashes t :
  build digest chunkHashes = Returned t →
  chunkHashes ≠ [] ∧ tree_type t = "BMT" ∧ chunk_hashes t = chunkHashes
  ∧ ∃ rest, while_level digest (length chunkHashes) (leaf <$> chunkHashes)
            = Returned (tree t :: rest).
Proof.
  unfold build. destruct (decide (length chunkHashes = 0)); [done|].
  destruct (while_level _ _ _) as [[|root rest]|e|]; cbn; try done.
  intros [= <-]. repeat split; [by destruct chunkHashes|by exists rest].
Qed.

Lemma level_ok_leaves digest cs : cs ≠ [] → level_ok digest cs 0 (leaf <$> cs).
Proof.
  intros Hne. unfold level_ok. rewrite length_fmap. cbn [Nat.pow].
  repeat split; try lia.
  - clear Hne. induction cs as [|c cs IH]; [done|].
    rewrite !fmap_cons. cbn [mjoin list_join leaves leaf app]. by f_equal.
  - by apply Forall_fmap, Forall_true.
  - by apply Forall_fmap, Forall_true.
  - intros H. apply Forall_fmap. eapply Forall_impl; [exact H|].
    intros h Hh. cbn. by apply Forall_singleton.
  - destruct cs; [done | cbn; lia].
Qed.

Lemma nextLevel_ok digest cs j level next :
  level_ok digest cs j level → 1 < length level →
  nextLevel digest level = Returned next → level_ok digest cs (S j) next.
Proof.
  intros (Hleaves & Hmerkle & Hheight & H32 & Hup & Hlow & Hprev) Hlong Hn.
  pose proof (nextLevel_length _ _ _ Hn) as Hlen.
  assert (mjoin (leaves <$> next) = mjoin (leaves <$> level)
          ∧ Forall (merkle_ok digest) next
          ∧ Forall (λ n, height n = S j) next
          ∧ (Forall (λ n, Forall (λ h, length (bytes h) = 32) (node_hashes n)) level →
             Forall (λ n, Forall (λ h, length (bytes h) = 32) (node_hashes n)) next))
    as (Hl & Hm & Hh & Hb).
  { clear Hleaves H32 Hup Hlow Hprev Hlong Hlen. revert next Hn.
    induction level as [|l|l r rest IH] using list_pair_ind; intros next.
    - by intros [= <-].
    - cbn [nextLevel]. destruct (fromBytes digest _) as [parentHash|e|] eqn:Hf;
        cbn; [|done..].
      intros [= <-]. rewrite Forall_singleton in Hmerkle, Hheight.
      repeat split.
      + cbn. destruct l as [h [a|] [b|]]; cbn; by rewrite ?app_nil_r.
      + apply Forall_singleton. cbn [merkle_ok]. split; [exact Hf | done].
      + apply Forall_singleton. cbn. rewrite Hheight. by destruct l as [h [a|] [b|]]; lia.
      + intros Hb. rewrite Forall_singleton in Hb. apply Forall_singleton. cbn.
        rewrite app_nil_r. apply Forall_cons. split; [|done].
        by apply fromBytes_Returned in Hf as [_ ?].
    - cbn [nextLevel]. destruct (fromBytes digest _) as [parentHash|e|] eqn:Hf;
        cbn; [|done..].
      destruct (nextLevel digest rest) as [parents|e|] eqn:Hp; cbn; [|done..].
      intros [= <-].
      apply Forall_cons_1 in Hmerkle as [Hml [Hmr Hmrest]%Forall_cons_1].
      apply Forall_cons_1 in Hheight as [Hhl [Hhr Hhrest]%Forall_cons_1].
      destruct (IH Hmrest Hhrest parents eq_refl) as (IHl & IHm & IHh & IHb).
      repeat split.
      + rewrite !fmap_cons.
        change (mjoin (?a :: ?b :: ?c)) with (a ++ b ++ mjoin c).
        change (mjoin (?a :: ?c)) with (a ++ mjoin c).
        rewrite IHl, app_assoc. by f_equal.
      + apply Forall_cons. split; [|done]. cbn [merkle_ok]. split; [exact Hf | done].
      + apply Forall_cons. split; [|done]. cbn. rewrite Hhl, Hhr. lia.
      + intros [Hbl [Hbr Hbrest]%Forall_cons_1]%Forall_cons_1.
        apply Forall_cons. split; [|by apply IHb]. cbn.
        apply Forall_cons. split; [by apply fromBytes_Returned in Hf as [_ ?]|].
        by apply Forall_app. }
  unfold level_ok. rewrite Hl, Hlen.
  assert (2 * Nat.div2 (S (length level)) = length level
          ∨ 2 * Nat.div2 (S (length level)) = S (length level)) as Hhalf.
  { rewrite Nat.div2_div. lia. }
  cbn [Nat.pow]. replace (S j - 1) with j by lia.
  repeat split; try done; try (by intros ?; apply Hb, H32); nia.
Qed.

Lemma build_level_ok digest chunkHashes t :
  build digest chunkHashes = Returned t →
  ∃ j, level_ok digest chunkHashes j [tree t].
Proof.
  intros (Hne & _ & _ & rest & Hw)%build_Returned.
  destruct (while_level_invariant digest (level_ok digest chunkHashes)
              _ _ 0 _ (nextLevel_ok digest chunkHashes)
              (level_ok_leaves digest chunkHashes Hne) Hw) as (j & Hok & Hlen).
  exists j. destruct rest; [done | cbn in Hlen; lia].
Qed.

(** X5. The tree [build] returns holds the chunk hashes it was given: its
    leaves, from left to right, are the chunk hashes in their order, and
    [chunk_hashes] is the sequence itself. *)
Theorem build_leaves (digest : list byte → outcome (list byte))
    (chunkHashes : list YHash) (t : BlobHashTree) :
  build digest chunkHashes = Returned t →
  leaves (tree t) = chunkHashes ∧ chunk_hashes t = chunkHashes
  ∧ tree_type t = "BMT".
Proof.
  intros Hb. destruct (build_level_ok _ _ _ Hb) as (j & Hl & _).
  apply build_Returned in Hb as (_ & ? & ? & _).
  cbn in Hl. by rewrite app_nil_r in Hl.
Qed.

Lemma build_leaves_witness :
  ∃ t, build crypto_digest [abc_digest; abc_digest; abc_digest] = Returned t
       ∧ leaves (tree t) = [abc_digest; abc_digest; abc_digest].
Proof.
  destruct (build_total crypto_digest crypto_digest_ok
              [abc_digest; abc_digest; abc_digest]) as (root & Hb); [done|].
  eexists. split; [exact Hb|].
  by destruct (build_leaves _ _ _ Hb) as (? & _).
Defined.

(** X6. The tree [build] returns is a hash tree: every node that has a
    child has a left child, and its hash is the digest of the bytes of its
    left child's hash followed by the bytes of its right child's hash, or by
    the sentinel when it has no right child. *)
Theorem build_merkle (digest : list byte → outcome (list byte))
    (chunkHashes : list YHash) (t : BlobHashTree) :
  build digest chunkHashes = Returned t → merkle_ok digest (tree t).
Proof.
  intros Hb. destruct (build_level_ok _ _ _ Hb) as (j & _ & Hm & _).
  by rewrite Forall_singleton in Hm.
Qed.

Lemma build_merkle_witness :
  ∃ t, build crypto_digest [abc_digest; abc_digest; abc_digest] = Returned t
       ∧ merkle_ok crypto_digest (tree t).
Proof.
  destruct (build_total crypto_digest crypto_digest_ok
              [abc_digest; abc_digest; abc_digest]) as (root & Hb); [done|].
  eexists. split; [exact Hb|]. exact (build_merkle _ _ _ Hb).
Defined.

(** X7. The height of the tree [build] returns is the logarithm of the
    number of chunks, rounded up: with [n] chunk hashes and height [h],
    [n <= 2^h], and [2^(h-1) < n] unless [h = 0]. *)
Theorem build_height (digest : list byte → outcome (list byte))
    (chunkHashes : list YHash) (t : BlobHashTree) :
  build digest chunkHashes = Returned t →
  let n := length chunkHashes in
  let h := height (tree t) in
  n ≤ 2 ^ h ∧ (0 < h → 2 ^ (h - 1) < n) ∧ (h = 0 ↔ n = 1).
Proof.
  intros Hb n h.
  destruct (build_level_ok _ _ _ Hb) as (j & _ & _ & Hh & _ & Hup & _ & Hprev).
  rewrite Forall_singleton in Hh. fold h in Hh. subst j.
  cbn [length] in Hup. fold n in Hup, Hprev.
  apply build_Returned in Hb as (Hne & _).
  assert (0 < n) by (unfold n; destruct chunkHashes; [done | cbn; lia]).
  split; [lia|]. split; [done|]. split.
  - intros E. rewrite E in Hup. cbn in Hup. lia.
  - intros Hn. destruct h as [|h']; [done|].
    specialize (Hprev ltac:(lia)).
    assert (1 ≤ 2 ^ (S h' - 1)) by (apply Nat.pow_lower_bound; lia). lia.
Qed.

Lemma build_height_witness :
  ∃ t, build crypto_digest (replicate 5 abc_digest) = Returned t
       ∧ height (tree t) = 3.
Proof.
  destruct (build_total crypto_digest crypto_digest_ok (replicate 5 abc_digest))
    as (root & Hb); [done|].
  eexists. split; [exact Hb|].
  destruct (build_height _ _ _ Hb) as (Hup & Hlow & _).
  cbn [length replicate] in Hup, Hlow.
  destruct (height _) as [|[|[|[|h]]]]; cbn in Hup, Hlow; lia.
Defined.

(** X8. Built from chunk hashes of 32 bytes, the tree has hashes of 32
    bytes in all its nodes. *)
Theorem build_hashes_32 (digest : list byte → outcome (list byte))
    (chunkHashes : list YHash) (t : BlobHashTree) :
  build digest chunkHashes = Returned t →
  Forall (λ h, length (bytes h) = 32) chunkHashes →
  Forall (λ h, length (bytes h) = 32) (node_hashes (tree t)).
Proof.
  intros Hb H32. destruct (build_level_ok _ _ _ Hb) as (j & _ & _ & _ & Hn & _).
  specialize (Hn H32). by rewrite Forall_singleton in Hn.
Qed.

Lemma build_hashes_32_witness :
  ∃ t, build crypto_digest [abc_digest; abc_digest; abc_digest] = Returned t
       ∧ Forall (λ h, length (bytes h) = 32) (node_hashes (tree t)).
Proof.
  destruct (build_total crypto_digest crypto_digest_ok
              [abc_digest; abc_digest; abc_digest]) as (root & Hb); [done|].
  eexists. split; [exact Hb|].
  apply (build_hashes_32 _ _ _ Hb).
  repeat (apply Forall_cons; split; [apply sha256_length|]). apply Forall_nil_2.
Defined.

(** X9. What is hashed for a parent tells its children apart: for hashes
    of 32 bytes, the bytes hashed for a left hash and a right hash (or none)
    are the bytes hashed for another left and right only when these are the
    same; in particular the bytes of a node without right child are never
    those of a node with one. *)
Theorem parent_bytes_inj (l l' : YHash) (r r' : option YHash) :
  length (bytes l) = 32 → length (bytes l') = 32 →
  (∀ h, r = Some h → length (bytes h) = 32) →
  (∀ h, r' = Some h → length (bytes h) = 32) →
  parent_bytes l r = parent_bytes l' r' → l = l' ∧ r = r'.
Proof.
  intros Hl Hl' Hr Hr' E. unfold parent_bytes in E.
  apply app_inj_1 in E as [El Er]; [|congruence].
  destruct l as [bl], l' as [bl']. cbn in El. subst bl'. split; [done|].
  destruct r as [[br]|], r' as [[br']|]; cbn in Er.
  - by subst.
  - specialize (Hr _ eq_refl). cbn in Hr. rewrite Er in Hr. done.
  - specialize (Hr' _ eq_refl). cbn in Hr'. rewrite <- Er in Hr'. done.
  - done.
Qed.

Lemma parent_bytes_inj_witness :
  parent_bytes abc_digest None ≠ parent_bytes abc_digest (Some abc_digest).
Proof.
  intros E.
  apply (parent_bytes_inj abc_digest abc_digest None (Some abc_digest)) in E
    as [_ E]; [done | apply sha256_length.. | done |].
  intros h [= <-]. apply sha256_length.
Defined.

(** ** The serialized tree *)

Lemma TreeNode_induction (P : TreeNode → Prop) :
  (∀ h l r, (∀ n, l = Some n → P n) → (∀ n, r = Some n → P n) →
            P (Build_TreeNode h l r)) →
  ∀ n, P n.
Proof.
  intros H. fix IH 1. intros [h [l|] [r|]]; apply H;
    try (intros n [= <-]; apply IH); intros n [=].
Qed.

Lemma nodeToJSON_inj n1 n2 : nodeToJSON n1 = nodeToJSON n2 → n1 = n2.
Proof.
  revert n2. induction n1 as [h1 l1 r1 IHl IHr] using TreeNode_induction.
  intros [h2 l2 r2]. cbn [nodeToJSON]. intros [= Hh Hl Hr].
  assert (h1 = h2) as -> by (apply toShaString_hex_inj; auto).
  assert (l1 = l2) as ->.
  { destruct l1 as [a|], l2 as [b|]; try done. f_equal. apply (IHl a eq_refl).
    by injection Hl. }
  assert (r1 = r2) as ->; [|done].
  destruct r1 as [a|], r2 as [b|]; try done. f_equal. apply (IHr a eq_refl).
  by injection Hr.
Qed.

(** X10. The JSON form of a tree, which is what the gateway is sent, loses
    nothing: two trees with the same JSON form have the same type, the same
    chunk hashes in the same order and the same nodes. *)
Theorem toJSON_inj (t1 t2 : BlobHashTree) :
  toJSON t1 = toJSON t2 → t1 = t2.
Proof.
  destruct t1 as [ty1 cs1 n1], t2 as [ty2 cs2 n2]. unfold toJSON. cbn.
  intros [= -> Hcs Hn]. apply nodeToJSON_inj in Hn as ->. f_equal.
  revert cs2 Hcs. induction cs1 as [|c cs1 IH]; intros [|c' cs2] Hcs; try done.
  rewrite !fmap_cons in Hcs. injection Hcs as Hc Hcs.
  f_equal; [apply toShaString_hex_inj; auto | by apply IH].
Qed.

Lemma toJSON_inj_witness :
  let t1 := {| tree_type := "BMT"; chunk_hashes := [abc_digest];
               tree := leaf abc_digest |} in
  let t2 := {| tree_type := "BMT";
               chunk_hashes := [{| bytes := SHA256.sha256 (TextEncoder_encode "abc") |}];
               tree := leaf abc_digest |} in
  toJSON t1 = toJSON t2 ∧ t1 = t2.
Proof.
  split; [reflexivity | apply toJSON_inj; reflexivity].
Defined.

(** ** The worker pool: failures *)

Lemma failures_app l1 l2 : failures (l1 ++ l2) = failures l1 ++ failures l2.
Proof. apply omap_app. Qed.

Lemma failed_failures l : failed l = fst <$> failures l.
Proof.
  induction l as [|e l IH]; [done|]. destruct e; try exact IH.
  change (chunk_index :: failed l = chunk_index :: (fst <$> failures l)). by f_equal.
Qed.

Lemma elem_of_failed j l : j ∈ failed l ↔ ∃ e, (j, e) ∈ failures l.
Proof.
  rewrite failed_failures, list_elem_of_fmap. split.
  - intros ([j' e] & -> & Hin). by exists e.
  - intros [e Hin]. by exists (j, e).
Qed.

Section PoolFailures.

Variable W : World.
Variable client : StorageClient.
Variable chunks : list Blob.
Variable chunkHashes : list YHash.
Variable blobRootHash : YHash.
Variable onProgress : bool.

Local Abbreviation total := (length chunks).
Local Abbreviation step := (pool_step W client chunks chunkHashes blobRootHash onProgress).
Local Abbreviation run := (pool_run W client chunks chunkHashes blobRootHash onProgress).
Local Abbreviation inv := (pool_inv total onProgress).
Local Abbreviation finv := (pool_failures W chunkHashes total).

Lemma pool_init_failures : finv (pool_init chunks).
Proof.
  split; cbn [pool_init workers rejection log failures requested omap list_omap head];
    try done; try (intros j e Hin; by apply elem_of_nil in Hin);
    try (intros j Hin; by apply elem_of_nil in Hin).
  - intros w e Hl. rewrite list_lookup_fmap in Hl.
    destruct (seq 0 MAXIMUM_CONCURRENT_UPLOADS !! w) as [i|]; [|done].
    cbn in Hl. injection Hl as Hl. unfold start_worker in Hl. by destruct (decide _).
  - apply NoDup_nil_2.
Qed.

(** The worker [w], about to read or awaiting the reply for the chunk
    [index], is rejected. *)
Lemma reject_failures p w s index e :
  inv p → finv p → workers p !! w = Some s →
  s = AwaitRead index ∨ s = AwaitReply index →
  chunk_failure W chunkHashes index e →
  finv (reject w index e p).
Proof.
  intros Hinv [Hfirst Hworker Hrejected Hcause Hflight Hnodup] Hs Hstate Hwhy.
  assert (w < length (workers p)) as Hw by (by eapply lookup_lt_Some).
  assert (index mod MAXIMUM_CONCURRENT_UPLOADS = w ∧ index < total
          ∧ ∀ j, j mod MAXIMUM_CONCURRENT_UPLOADS = w →
                 (j ∈ requested (log p) → j ≤ index)
                 ∧ (j ∈ stored (log p) → j < index)) as (Hm & Hlt & Hj).
  { pose proof (inv_workers _ _ _ Hinv _ _ Hs) as Hok.
    destruct Hstate as [-> | ->]; destruct Hok as (Hm & Hlt & Hj);
      (do 2 (split; [done|])); intros j Hjm; destruct (Hj j Hjm) as [Hr Hst];
      rewrite Hr, Hst; lia. }
  assert (∀ j e', (j, e') ∈ failures (log p) → j mod MAXIMUM_CONCURRENT_UPLOADS ≠ w)
    as Hfresh.
  { intros j e' Hin Hjm. apply Hworker in Hin. rewrite Hjm in Hin.
    destruct Hstate as [-> | ->]; congruence. }
  split; unfold reject; cbn [workers rejection log]; rewrite ?failures_app;
    read_events; cbn [failures omap list_omap].
  - rewrite Hfirst. by destruct (failures (log p)).
  - intros j e' [Hin| [= -> ->]%list_elem_of_singleton]%elem_of_app.
    + rewrite list_lookup_insert_ne by (symmetry; by eapply Hfresh). by apply Hworker.
    + rewrite Hm. by apply list_lookup_insert_eq.
  - intros w' e' [(-> & [= <-] & _)|(Hne & Hl)]%list_lookup_insert_Some.
    + exists index. split; [done|]. split; [apply elem_of_app; right; by left|].
      intros k Hk. destruct (Hj k Hk) as [Hr Hst]. do 2 (split; [done|]).
      rewrite elem_of_app, list_elem_of_singleton. intros [Hin|?]; [|done].
      apply elem_of_failed in Hin as [e' Hin]. by destruct (Hfresh _ _ Hin).
    + destruct (Hrejected _ _ Hl) as (j & Hjm & Hin & Hk). exists j.
      split; [done|]. split; [apply elem_of_app; by left|].
      intros k Hkm. destruct (Hk k Hkm) as (Hr & Hst & Hf). do 2 (split; [done|]).
      rewrite elem_of_app, list_elem_of_singleton. intros [?| ->]; [by apply Hf|].
      congruence.
  - intros j e' [Hin| [= -> ->]%list_elem_of_singleton]%elem_of_app; [by apply Hcause|].
    done.
  - intros j Hin. rewrite elem_of_app, list_elem_of_singleton.
    destruct (Hflight j Hin) as [?|[?|Hl]]; [by left | right; left; by left |].
    destruct (decide (j mod MAXIMUM_CONCURRENT_UPLOADS = w)) as [Hjm|Hne].
    + rewrite Hjm, Hs in Hl. destruct Hstate as [-> | ->]; [done|].
      injection Hl as ->. right. left. by right.
    + right. right. by rewrite list_lookup_insert_ne.
  - apply NoDup_app. repeat split; [done| |apply NoDup_singleton].
    intros j [e' Hin]%elem_of_failed ->%list_elem_of_singleton.
    by destruct (Hfresh _ _ Hin).
Qed.

Lemma arrayBuffer_Threw ph i chunk e :
  arrayBuffer W ph i chunk = Threw e →
  ∃ reason, read_fails W ph i = Some reason ∧ e = Rejected reason.
Proof.
  unfold arrayBuffer. destruct (read_fails W ph i) as [reason|]; [|done].
  intros [= <-]. by exists reason.
Qed.

Lemma pool_step_failures p w p' : inv p → finv p → step w p = Some p' → finv p'.
Proof.
  intros Hinv Hf Hstep. unfold pool_step in Hstep.
  destruct (workers p !! w) as [[i|i| |e]|] eqn:Hs; try done.
  - (* the worker has read the chunk and sends it *)
    destruct (inv_workers _ _ _ Hinv _ _ Hs) as (Hm & Hlt & Hj).
    destruct (chunks !! i) as [chunk|] eqn:Hc;
      [|by apply lookup_ge_None in Hc; lia].
    destruct (arrayBuffer W Uploading i chunk) as [chunkData|e|] eqn:Hread; [| |done].
    2:{ injection Hstep as <-. eapply reject_failures; [done..|by left|].
        left. by eapply arrayBuffer_Threw. }
    destruct (chunkHashes !! i) as [chunkHash|] eqn:Hh.
    2:{ injection Hstep as <-. eapply reject_failures; [done..|by left|].
        right. by left. }
    injection Hstep as <-.
    destruct Hf as [Hfirst Hworker Hrejected Hcause Hflight Hnodup].
    assert (w < length (workers p)) as Hw by (by eapply lookup_lt_Some).
    assert (∀ j e', (j, e') ∈ failures (log p) → j mod MAXIMUM_CONCURRENT_UPLOADS ≠ w)
      as Hfresh.
    { intros j e' Hin Hjm. apply Hworker in Hin. rewrite Hjm in Hin. congruence. }
    split; cbn [workers rejection log]; rewrite ?failures_app; read_events;
      cbn [failures omap list_omap]; rewrite ?app_nil_r; try done.
    + intros j e' Hin.
      rewrite list_lookup_insert_ne by (symmetry; by eapply Hfresh). by apply Hworker.
    + intros w' e' [(-> & [=] & _)|(Hne & Hl)]%list_lookup_insert_Some.
      destruct (Hrejected _ _ Hl) as (j & Hjm & Hin & Hk). exists j.
      do 2 (split; [done|]). intros k Hkm. destruct (Hk k Hkm) as (Hr & Hst & Hfl).
      split; [|done]. rewrite elem_of_app, list_elem_of_singleton.
      intros [?| ->]; [by apply Hr | congruence].
    + intros j [Hin| ->%list_elem_of_singleton]%elem_of_app.
      * destruct (Hflight j Hin) as [?|[?|Hl]]; [by left | right; by left |].
        right. right. rewrite list_lookup_insert_ne; [done|].
        intros Hw'. rewrite <- Hw', Hs in Hl. done.
      * right. right. rewrite Hm. by apply list_lookup_insert_eq.
  - (* the reply has come *)
    destruct (inv_workers _ _ _ Hinv _ _ Hs) as (Hm & Hlt & Hj).
    destruct (uploadChunk W i) as [isComplete|e|] eqn:Hup; [| |done].
    2:{ injection Hstep as <-. eapply reject_failures; [done..|by right|].
        right. by right. }
    injection Hstep as <-.
    destruct Hf as [Hfirst Hworker Hrejected Hcause Hflight Hnodup].
    assert (w < length (workers p)) as Hw by (by eapply lookup_lt_Some).
    assert (∀ j e', (j, e') ∈ failures (log p) → j mod MAXIMUM_CONCURRENT_UPLOADS ≠ w)
      as Hfresh.
    { intros j e' Hin Hjm. apply Hworker in Hin. rewrite Hjm in Hin. congruence. }
    set (tail := if onProgress then _ else _).
    assert (failures (log p ++ EvChunkStored i :: tail) = failures (log p)
            ∧ requested (log p ++ EvChunkStored i :: tail) = requested (log p)
            ∧ failed (log p ++ EvChunkStored i :: tail) = failed (log p)
            ∧ stored (log p ++ EvChunkStored i :: tail) = stored (log p) ++ [i])
      as (Ef & Er & Efd & Es).
    { unfold tail. rewrite failures_app.
      destruct onProgress; read_events; cbn [failures omap list_omap];
        by rewrite ?app_nil_r. }
    split; cbn [workers rejection log]; rewrite ?Ef, ?Er, ?Efd, ?Es; try done.
    + intros j e' Hin.
      rewrite list_lookup_insert_ne by (symmetry; by eapply Hfresh). by apply Hworker.
    + intros w' e' [(-> & Hst & _)|(Hne & Hl)]%list_lookup_insert_Some.
      { unfold start_worker in Hst. by destruct (decide _). }
      destruct (Hrejected _ _ Hl) as (j & Hjm & Hin & Hk). exists j.
      do 2 (split; [done|]). intros k Hkm. destruct (Hk k Hkm) as (Hr & Hst & Hfl).
      split; [done|]. split; [|done]. rewrite elem_of_app, list_elem_of_singleton.
      intros [?| ->]; [by apply Hst | congruence].
    + intros j Hin. rewrite elem_of_app, list_elem_of_singleton.
      destruct (Hflight j Hin) as [?|[?|Hl]]; [left; by left | right; by left |].
      destruct (decide (j mod MAXIMUM_CONCURRENT_UPLOADS = w)) as [Hjm|Hne].
      * rewrite Hjm, Hs in Hl. injection Hl as ->. left. by right.
      * right. right. by rewrite list_lookup_insert_ne.
Qed.

Lemma pool_run_failures schedule p :
  inv p → finv p → inv (run schedule p) ∧ finv (run schedule p).
Proof.
  revert p. induction schedule as [|w schedule IH]; intros p Hinv Hf; [done|].
  cbn [pool_run foldl]. destruct (step w p) as [p'|] eqn:Hstep; cbn [default].
  - apply IH; [by eapply pool_step_inv | by eapply pool_step_failures].
  - by apply IH.
Qed.

End PoolFailures.

(** ** The worker pool: the replies of the gateway *)

Lemma uploadChunk_Returned (W : World) i isComplete :
  uploadChunk W i = Returned isComplete → ∃ status, put_chunk W i = Ok status.
Proof.
  unfold uploadChunk. destruct (put_chunk W i) as [reason|st stt body|status]; [done..|].
  intros _. by exists status.
Qed.

Lemma uploadChunk_Threw (W : World) i e :
  uploadChunk W i = Threw e → ∀ status, put_chunk W i ≠ Ok status.
Proof.
  unfold uploadChunk. destruct (put_chunk W i) as [reason|st stt body|status]; done.
Qed.

Section PoolReplies.

Variable W : World.
Variable client : StorageClient.
Variable chunks : list Blob.
Variable chunkHashes : list YHash.
Variable blobRootHash : YHash.
Variable onProgress : bool.

Local Abbreviation total := (length chunks).
Local Abbreviation step := (pool_step W client chunks chunkHashes blobRootHash onProgress).
Local Abbreviation run := (pool_run W client chunks chunkHashes blobRootHash onProgress).
Local Abbreviation inv := (pool_inv total onProgress).
Local Abbreviation finv := (pool_failures W chunkHashes total).

Lemma pool_init_replies : pool_replies W (pool_init chunks).
Proof.
  split; cbn [pool_init log stored failures omap list_omap].
  - intros i Hin. by apply elem_of_nil in Hin.
  - intros i e Hin. by apply elem_of_nil in Hin.
Qed.

(** The worker [w] is rejected: before it has sent the request for the
    chunk [index], or with what [uploadChunk] threw. *)
Lemma reject_replies p w index e :
  pool_replies W p →
  index ∉ requested (log p) ∨ uploadChunk W index = Threw e →
  pool_replies W (reject w index e p).
Proof.
  intros [Hst Hfl] Hwhy.
  split; unfold reject; cbn [log]; rewrite ?failures_app; read_events;
    cbn [failures omap list_omap]; [done|].
  intros i e' [Hin| [= -> ->]%list_elem_of_singleton]%elem_of_app Hr; [by apply Hfl|].
  by destruct Hwhy.
Qed.

Lemma pool_step_replies p w p' :
  inv p → finv p → pool_replies W p → step w p = Some p' → pool_replies W p'.
Proof.
  intros Hinv Hf Hrep Hstep. unfold pool_step in Hstep.
  destruct (workers p !! w) as [[i|i| |e]|] eqn:Hs; try done.
  - (* the worker has read the chunk and sends it *)
    destruct (inv_workers _ _ _ Hinv _ _ Hs) as (Hm & Hlt & Hj).
    assert (i ∉ requested (log p)) as Hfresh
      by (intros Hin; apply (Hj i Hm) in Hin; lia).
    destruct (chunks !! i) as [chunk|];
      [|injection Hstep as <-; apply reject_replies; [done | by left]].
    destruct (arrayBuffer W Uploading i chunk) as [chunkData|e|];
      [|injection Hstep as <-; apply reject_replies; [done | by left]|done].
    destruct (chunkHashes !! i) as [chunkHash|];
      [|injection Hstep as <-; apply reject_replies; [done | by left]].
    injection Hstep as <-. destruct Hrep as [Hst Hfl].
    split; cbn [log]; rewrite ?failures_app; read_events;
      cbn [failures omap list_omap]; rewrite ?app_nil_r; [done|].
    intros j e Hin [Hr| ->%list_elem_of_singleton]%elem_of_app; [by apply Hfl|].
    apply (fail_worker _ _ _ _ Hf) in Hin. rewrite Hm in Hin. congruence.
  - (* the reply has come *)
    destruct (uploadChunk W i) as [isComplete|e|] eqn:Hup;
      [|injection Hstep as <-; apply reject_replies; [done | by right]|done].
    injection Hstep as <-. destruct Hrep as [Hst Hfl].
    set (tail := if onProgress then _ else _).
    assert (failures (log p ++ EvChunkStored i :: tail) = failures (log p)
            ∧ requested (log p ++ EvChunkStored i :: tail) = requested (log p)
            ∧ stored (log p ++ EvChunkStored i :: tail) = stored (log p) ++ [i])
      as (Ef & Er & Es).
    { unfold tail. rewrite failures_app.
      destruct onProgress; read_events; cbn [failures omap list_omap];
        by rewrite ?app_nil_r. }
    split; cbn [log]; rewrite ?Ef, ?Er, ?Es; [|done].
    intros j [Hin| ->%list_elem_of_singleton]%elem_of_app; [by apply Hst|].
    by eapply uploadChunk_Returned.
Qed.

(** The three invariants hold however the workers are scheduled. *)
Lemma pool_run_replies schedule p :
  inv p → finv p → pool_replies W p →
  inv (run schedule p) ∧ finv (run schedule p) ∧ pool_replies W (run schedule p).
Proof.
  revert p. induction schedule as [|w schedule IH]; intros p Hinv Hf Hrep; [done|].
  cbn [pool_run foldl]. destruct (step w p) as [p'|] eqn:Hstep; cbn [default].
  - apply IH; [by eapply pool_step_inv | by eapply pool_step_failures
              | by eapply pool_step_replies].
  - by apply IH.
Qed.

(** The acknowledged chunks are the requested chunks that the gateway
    accepted and whose reply the worker has taken. *)
Lemma stored_iff p i :
  inv p → finv p → pool_replies W p →
  i ∈ stored (log p) ↔
    i ∈ requested (log p) ∧ (∃ status, put_chunk W i = Ok status)
    ∧ workers p !! (i mod MAXIMUM_CONCURRENT_UPLOADS) ≠ Some (AwaitReply i).
Proof.
  intros Hinv Hf [Hst Hfl]. split.
  - intros Hin. split; [by apply (inv_stored_requested _ _ _ Hinv)|].
    split; [by apply Hst|]. intros Hl.
    destruct (inv_workers _ _ _ Hinv _ _ Hl) as (_ & _ & Hj).
    apply (Hj i eq_refl) in Hin. lia.
  - intros (Hr & [status Hok] & Hw).
    destruct (fail_in_flight _ _ _ _ Hf i Hr) as [?|[[e Hin]%elem_of_failed|?]]; try done.
    apply Hfl in Hin; [|done]. by destruct (uploadChunk_Threw _ _ _ Hin status).
Qed.

(** When every worker is resolved no chunk upload has failed. *)
Lemma all_resolved_no_failure p :
  finv p → all_resolved p = true → failed (log p) = [].
Proof.
  intros Hf Hall. destruct (failed (log p)) as [|i l] eqn:E; [done|].
  assert (i ∈ failed (log p)) as [e Hin]%elem_of_failed by (rewrite E; left).
  apply (fail_worker _ _ _ _ Hf) in Hin.
  by apply (all_resolved_lookup _ _ _ Hall) in Hin.
Qed.

End PoolReplies.

(** C9. With a progress callback, and however the workers are scheduled:
    the counter is the number of chunks acknowledged, no chunk being
    acknowledged twice, and a chunk is acknowledged exactly when its
    request was sent, the gateway answered it with an [ok] response and its
    worker has taken the reply; so a chunk the gateway refused, or whose
    request [fetch] rejected, is never counted, nor is a chunk whose upload
    threw. Each acknowledgement is followed, before the next one, by one
    call of the callback, the [k]-th time with
    [Math.round((k / chunks.length) * 100)] computed in binary64, which is
    100 when there is no chunk (the callback is then never called). When
    every worker is resolved no upload has failed, the gateway accepted
    every chunk, the counter is the number of chunks and the last call
    reported 100. *)
Theorem parallelUpload_progress (W : World) (client : StorageClient)
    (chunks : list Blob) (chunkHashes : list YHash) (blobRootHash : YHash)
    (schedule : list nat) :
  let total := length chunks in
  let p := pool_run W client chunks chunkHashes blobRootHash true schedule
             (pool_init chunks) in
  completedChunks p = length (stored (log p))
  ∧ NoDup (stored (log p))
  ∧ acknowledged (log p) =
      mjoin (imap (λ k i, [inl i; inr (percentage (S k) total)]) (stored (log p)))
  ∧ progress (log p) = (λ k, percentage k total) <$> seq 1 (completedChunks p)
  ∧ (∀ k, percentage k 0 = number_of_Z 100)
  ∧ (all_resolved p = true → completedChunks p = total)
  ∧ (all_resolved p = true → 0 < total → (Z.of_nat total < 2 ^ 53)%Z →
     last (progress (log p)) = Some (number_of_Z 100))
  ∧ (∀ i, i ∈ stored (log p) ↔
          i ∈ requested (log p) ∧ (∃ status, put_chunk W i = Ok status)
          ∧ workers p !! (i mod MAXIMUM_CONCURRENT_UPLOADS) ≠ Some (AwaitReply i))
  ∧ (∀ i reason, put_chunk W i = FetchRejected reason → i ∉ stored (log p))
  ∧ (∀ i status statusText errorText,
       put_chunk W i = NotOk status statusText errorText → i ∉ stored (log p))
  ∧ (∀ i, i ∈ failed (log p) → i ∉ stored (log p))
  ∧ (∀ i e, (i, e) ∈ failures (log p) → i ∈ requested (log p) →
       uploadChunk W i = Threw e)
  ∧ (total = 0 → progress (log p) = [])
  ∧ (all_resolved p = true →
     failed (log p) = [] ∧ ∀ i, i < total → ∃ status, put_chunk W i = Ok status).
Proof.
  intros total p.
  destruct (pool_run_replies W client chunks chunkHashes blobRootHash true schedule
              (pool_init chunks)) as (Hinv & Hf & Hrep);
    [apply pool_init_inv | apply pool_init_failures | apply pool_init_replies |].
  fold p in Hinv, Hf, Hrep. fold total in Hinv, Hf.
  assert (all_resolved p = true → completedChunks p = total) as Hall.
  { intros Hall. rewrite (inv_completed _ _ _ Hinv).
    destruct (all_resolved_complete _ _ _ Hinv Hall) as [_ ->].
    apply length_seq. }
  assert (∀ i, i ∈ stored (log p) ↔
               i ∈ requested (log p) ∧ (∃ status, put_chunk W i = Ok status)
               ∧ workers p !! (i mod MAXIMUM_CONCURRENT_UPLOADS) ≠ Some (AwaitReply i))
    as Hiff by (intros i; by eapply stored_iff).
  split; [apply Hinv|]. split; [apply Hinv|]. split; [apply Hinv|].
  split; [apply Hinv|]. split; [done|]. split; [done|].
  split.
  { intros Hdone Hpos Hsmall.
    rewrite (inv_progress _ _ _ Hinv), (Hall Hdone), last_percentages by done.
    f_equal. by apply percentage_full. }
  split; [done|].
  split; [intros i reason Hput (_ & [status Hok] & _)%Hiff; congruence|].
  split; [intros i st stt body Hput (_ & [status Hok] & _)%Hiff; congruence|].
  split.
  { intros i [e Hin]%elem_of_failed Hst.
    pose proof (inv_stored_requested _ _ _ Hinv _ Hst) as Hr.
    apply (reply_failed _ _ Hrep) in Hin; [|done].
    apply Hiff in Hst as (_ & [status Hok] & _).
    by destruct (uploadChunk_Threw _ _ _ Hin status). }
  split; [apply Hrep|].
  split.
  { intros H0. rewrite (inv_progress _ _ _ Hinv).
    assert (completedChunks p = 0) as ->; [|done].
    rewrite (inv_completed _ _ _ Hinv).
    destruct (stored (log p)) as [|i l] eqn:E; [done|].
    assert (i ∈ stored (log p)) as Hin by (rewrite E; left).
    apply (inv_stored_requested _ _ _ Hinv), (inv_requested_bound _ _ _ Hinv) in Hin.
    lia. }
  intros Hdone. split; [by eapply all_resolved_no_failure|].
  intros i Hi. destruct (all_resolved_complete _ _ _ Hinv Hdone) as [_ Hsto].
  assert (i ∈ stored (log p)) as Hin by (rewrite Hsto, elem_of_seq; lia).
  by apply (reply_stored _ _ Hrep).
Qed.

(** Three chunks that the gateway accepts: the callback hears 33, 67 and
    100. Five chunks of which it refuses the chunk 2: four chunks are
    counted, the chunk 2 is not, and the callback hears 20, 40, 60 and 80,
    never 100. *)
Lemma parallelUpload_progress_witness :
  let p := pool_run (sample_world []) sample_client (sample_chunks 3)
             (replicate 3 abc_digest) abc_digest true
             (round_robin 2) (pool_init (sample_chunks 3)) in
  let q := pool_run (sample_world [2]) sample_client (sample_chunks 5)
             (replicate 5 abc_digest) abc_digest true
             (round_robin 2) (pool_init (sample_chunks 5)) in
  (completedChunks p = 3
   ∧ progress (log p) = [number_of_Z 33; number_of_Z 67; number_of_Z 100]
   ∧ last (progress (log p)) = Some (number_of_Z 100))
  ∧ (completedChunks q = 4
     ∧ 2 ∈ requested (log q) ∧ (2 ∉ stored (log q))
     ∧ progress (log q)
       = [number_of_Z 20; number_of_Z 40; number_of_Z 60; number_of_Z 80]).
Proof.
  intros p q.
  pose proof (parallelUpload_progress (sample_world []) sample_client
                (sample_chunks 3) (replicate 3 abc_digest) abc_digest
                (round_robin 2)) as (_ & _ & _ & _ & _ & Hcount & Hlast & _).
  pose proof (parallelUpload_progress (sample_world [2]) sample_client
                (sample_chunks 5) (replicate 5 abc_digest) abc_digest
                (round_robin 2)) as (Hc & _ & _ & Hp & _ & _ & _ & _ & _ & Hno & _).
  split; [split; [|split]|split; [|split; [|split]]].
  - apply Hcount. vm_compute. reflexivity.
  - vm_compute. reflexivity.
  - apply Hlast; [vm_compute; reflexivity | vm_compute; lia | reflexivity].
  - vm_compute. reflexivity.
  - vm_compute. do 2 right. left.
  - eapply Hno. vm_compute. reflexivity.
  - vm_compute. reflexivity.
Defined.


(** X12. The pool keeps its width: however the workers are scheduled, and
    at every moment, at most [MAXIMUM_CONCURRENT_UPLOADS] chunk requests
    are in flight (sent, and neither acknowledged nor failed), one for each
    worker that awaits a reply; when [parallelUpload] has returned there is
    none. *)
Theorem parallelUpload_in_flight (W : World) (client : StorageClient)
    (chunks : list Blob) (chunkHashes : list YHash) (blobRootHash : YHash)
    (onProgress : bool) (schedule : list nat) :
  let p := pool_run W client chunks chunkHashes blobRootHash onProgress schedule
             (pool_init chunks) in
  length (in_flight (log p)) ≤ MAXIMUM_CONCURRENT_UPLOADS
  ∧ NoDup (in_flight (log p))
  ∧ (∀ j, j ∈ in_flight (log p)
          ↔ workers p !! (j mod MAXIMUM_CONCURRENT_UPLOADS) = Some (AwaitReply j))
  ∧ (all_resolved p = true → in_flight (log p) = []).
Proof.
  intros p.
  destruct (pool_run_failures W client chunks chunkHashes blobRootHash onProgress
              schedule (pool_init chunks)) as [Hinv Hf];
    [apply pool_init_inv | apply pool_init_failures |].
  fold p in Hinv, Hf. destruct Hf as [Hfirst Hworker Hrejected Hcause Hflight Hnodup].
  assert (∀ j, j ∈ in_flight (log p)
               ↔ workers p !! (j mod MAXIMUM_CONCURRENT_UPLOADS) = Some (AwaitReply j))
    as Hiff.
  { intros j. unfold in_flight. rewrite list_elem_of_filter. split.
    - intros [[Hns Hnf] Hr]. by destruct (Hflight j Hr) as [?|[?|?]].
    - intros Hl. destruct (inv_workers _ _ _ Hinv _ _ Hl) as (_ & _ & Hj).
      destruct (Hj j eq_refl) as [Hr Hst].
      split; [split|]; [rewrite Hst; lia| |apply Hr; lia].
      intros [e Hin]%elem_of_failed. apply Hworker in Hin. congruence. }
  assert (NoDup (in_flight (log p))) as Hnd
    by (apply NoDup_filter, (inv_requested_NoDup _ _ _ Hinv)).
  split; [|split; [done|split; [done|]]].
  - assert (length ((λ j, j mod MAXIMUM_CONCURRENT_UPLOADS) <$> in_flight (log p))
            ≤ length (seq 0 MAXIMUM_CONCURRENT_UPLOADS)) as Hle;
      [|by rewrite length_fmap, length_seq in Hle].
    apply submseteq_length, NoDup_submseteq.
    + apply NoDup_fmap_2_strong; [|done].
      intros j k Hj%Hiff Hk%Hiff E. rewrite E in Hj. congruence.
    + intros w (j & -> & Hj)%list_elem_of_fmap. apply elem_of_seq.
      unfold MAXIMUM_CONCURRENT_UPLOADS. lia.
  - intros Hall. destruct (in_flight (log p)) as [|j l] eqn:E; [done|].
    assert (j ∈ j :: l) as Hin%Hiff by left.
    by apply (all_resolved_lookup _ _ _ Hall) in Hin.
Qed.

(** Five chunks of which the gateway refuses the chunk 2, the workers
    resumed once each: five requests are in flight; resumed once more, the
    chunk 2 has failed and no request is in flight. *)
Example parallelUpload_in_flight_five :
  let p schedule := pool_run (sample_world [2]) sample_client (sample_chunks 5)
                      (replicate 5 abc_digest) abc_digest true schedule
                      (pool_init (sample_chunks 5)) in
  in_flight (log (p (round_robin 1))) = [0; 1; 2; 3; 4]
  ∧ in_flight (log (p (round_robin 2))) = []
  ∧ failures (log (p (round_robin 2)))
    = [(2, ChunkUploadFailed 2 500 "Internal Server Error" "chunk refused")].
Proof. vm_compute. done. Qed.

(** ** What the gateway is sent *)

Lemma pool_step_requests_ok (W : World) (client : StorageClient)
    (chunks : list Blob) (chunkHashes : list YHash) (blobRootHash : YHash)
    (onProgress : bool) p w p' :
  Forall (chunk_request_ok client chunks chunkHashes blobRootHash) (log p) →
  pool_step W client chunks chunkHashes blobRootHash onProgress w p = Some p' →
  Forall (chunk_request_ok client chunks chunkHashes blobRootHash) (log p').
Proof.
  intros Hok Hstep. unfold pool_step in Hstep.
  destruct (workers p !! w) as [[i|i| |e]|]; try done.
  - destruct (chunks !! i) as [chunk|] eqn:Hc.
    2:{ injection Hstep as <-. apply Forall_app. by split; [|apply Forall_singleton]. }
    unfold arrayBuffer in Hstep. destruct (read_fails W Uploading i).
    { injection Hstep as <-. apply Forall_app. by split; [|apply Forall_singleton]. }
    destruct (chunkHashes !! i) as [chunkHash|] eqn:Hh; injection Hstep as <-;
      apply Forall_app; (split; [done|]); apply Forall_singleton; [|done].
    cbn. repeat split; try done. by exists chunkHash.
  - destruct (uploadChunk W i); [| |done]; injection Hstep as <-;
      apply Forall_app; (split; [done|]).
    + apply Forall_cons. split; [done|]. by destruct onProgress; repeat constructor.
    + by apply Forall_singleton.
Qed.

Lemma pool_run_requests_ok (W : World) (client : StorageClient)
    (chunks : list Blob) (chunkHashes : list YHash) (blobRootHash : YHash)
    (onProgress : bool) schedule :
  Forall (chunk_request_ok client chunks chunkHashes blobRootHash)
    (log (pool_run W client chunks chunkHashes blobRootHash onProgress schedule
            (pool_init chunks))).
Proof.
  assert (∀ p, Forall (chunk_request_ok client chunks chunkHashes blobRootHash) (log p) →
               Forall (chunk_request_ok client chunks chunkHashes blobRootHash)
                 (log (pool_run W client chunks chunkHashes blobRootHash onProgress
                         schedule p))) as H; [|apply H; constructor].
  induction schedule as [|w schedule IH]; intros p Hp; [done|].
  cbn [pool_run foldl]. apply IH.
  destruct (pool_step _ _ _ _ _ _ w p) as [p'|] eqn:Hstep; [|done].
  by eapply pool_step_requests_ok.
Qed.

(** The loop of [processFileForUpload]: when it returns, it has read every
    chunk and the digest at each index is the digest of the chunk at that
    index. *)
Lemma hash_chunks_Returned (W : World) chunks : ∀ i hs,
  hash_chunks W i chunks = Returned hs →
  length hs = length chunks
  ∧ ∀ k c, chunks !! k = Some c →
      read_fails W Hashing (i + k) = None
      ∧ ∃ out, subtle_digest W c = Returned out ∧ length out = 32
               ∧ hs !! k = Some {| bytes := out |}.
Proof.
  induction chunks as [|chunk chunks IH]; intros i hs; cbn [hash_chunks].
  { intros [= <-]. split; [done|]. intros k c Hl. by rewrite lookup_nil in Hl. }
  unfold arrayBuffer. destruct (read_fails W Hashing i) eqn:Hread; [done|].
  cbn [mbind outcome_bind].
  destruct (fromBytes (subtle_digest W) chunk) as [h|e|] eqn:Hh; [|done..].
  cbn [mbind outcome_bind].
  destruct (hash_chunks W (S i) chunks) as [hs'|e|] eqn:Hrest; [|done..].
  cbn [mbind outcome_bind]. intros [= <-].
  destruct (IH _ _ Hrest) as [Hlen Hk]. split; [cbn; by rewrite Hlen|].
  apply fromBytes_Returned in Hh as [Hd Hl].
  intros [|k] c Hc.
  - injection Hc as <-. rewrite Nat.add_0_r. split; [done|].
    exists (bytes h). by destruct h.
  - destruct (Hk k c Hc) as [Hr Ho]. by rewrite Nat.add_succ_r.
Qed.


Section PutFileTrace.

Variable W : World.
Variable client : StorageClient.

(** The events of [putFile], stage by stage: when the gateway has accepted
    the tree, they are the call of the builder, the tree request, the
    events of the pool, and what follows the pool. *)
Lemma putFile_trace schedule onProgress path file :
  let chunks := createFileChunks file defaultChunkSize in
  (requested (putFile W client schedule onProgress path file).1 = []
   ∧ ∀ res, (putFile W client schedule onProgress path file).2 ≠ Returned res)
  ∨ ∃ hs t status tail,
      let p := pool_run W client chunks hs (hash (tree t)) onProgress schedule
                 (pool_init chunks) in
      path ≠ ""
      ∧ hash_chunks W 0 chunks = Returned hs
      ∧ build (subtle_digest W) hs = Returned t
      ∧ put_blob_tree W (toJSON t) (bucket client) (size file) (owner client) = Ok status
      ∧ requested tail = []
      ∧ (∀ res, (putFile W client schedule onProgress path file).2 = Returned res →
           rejection p = None ∧ all_resolved p = true
           ∧ registerFileReference W path (toShaString (hash (tree t))) = Returned tt
           ∧ tail = [EvRegister path (toShaString (hash (tree t)));
                     EvGetFileReference path]
           ∧ ∃ fr, getFileReference W path = Returned fr
                   ∧ res = {| path := path;
                              hash_string := toShaString (hash (tree t));
                              url := storageGatewayUrl client +:+ "/blob?blob_hash=" +:+
                                     encodeURIComponent W (ref_hash fr) +:+ "&owner_id=" +:+
                                     encodeURIComponent W (owner client) |})
      ∧ (putFile W client schedule onProgress path file).1
        = EvBuild hs
          :: EvPutBlobTree (toJSON t) (bucket client) (size file) (owner client)
          :: log p ++ tail.
Proof.
  intros chunks. unfold putFile.
  destruct (decide (path = "")) as [|Hpath]; [by left|].
  unfold processFileForUpload. fold chunks.
  destruct (hash_chunks W 0 chunks) as [hs|e|] eqn:Hh; [|by left..].
  cbn [silently mbind action_bind emit].
  destruct (build (subtle_digest W) hs) as [t|e|] eqn:Hb; [|by left..].
  cbn [silently mbind action_bind emit mret action_ret app].
  unfold uploadBlobTree. cbn [silently mbind action_bind emit app].
  destruct (put_blob_tree W (toJSON t) (bucket client) (size file) (owner client))
    as [reason|status statusText errorText|status] eqn:Hput; [by left..|].
  cbn [silently mbind action_bind emit app].
  unfold parallelUpload.
  set (p := pool_run W client chunks hs (hash (tree t)) onProgress schedule
              (pool_init chunks)).
  right. exists hs, t, status.
  destruct (rejection p) as [e|] eqn:Hrej; cbn [mbind action_bind app fst snd].
  { exists []. rewrite app_nil_r. do 5 (split; [done|]). split; [|done].
    by intros res [=]. }
  destruct (all_resolved p) eqn:Hall; cbn [mbind action_bind app fst snd].
  2:{ exists []. rewrite app_nil_r. do 5 (split; [done|]). split; [|done].
      by intros res [=]. }
  destruct (registerFileReference W path (toShaString (hash (tree t)))) as [[]|e|] eqn:Hreg;
    cbn [mbind action_bind app fst snd].
  2,3: exists [EvRegister path (toShaString (hash (tree t)))];
    rewrite ?app_nil_r; do 5 (split; [done|]); (split; [|done]); by intros res [=].
  unfold getDirectURL. rewrite decide_False by done.
  cbn [silently mbind action_bind emit app].
  destruct (getFileReference W path) as [fr|e|] eqn:Hget;
    cbn [mbind action_bind mret action_ret app fst snd];
    exists [EvRegister path (toShaString (hash (tree t))); EvGetFileReference path];
    rewrite ?app_nil_r; do 5 (split; [done|]); (split; [|done]);
    [|by intros res [=]..].
  intros res [= <-]. do 4 (split; [done|]). by exists fr.
Qed.

End PutFileTrace.

Lemma requested_split pre post bh ch i d b o :
  requested (pre ++ EvPutChunk bh ch i d b o :: post) ≠ [].
Proof. read_events. by destruct (requested pre). Qed.

Lemma elem_of_requested_nil l bh ch i d b o :
  requested l = [] → EvPutChunk bh ch i d b o ∉ l.
Proof.
  intros Hnil (pre & post & ->)%list_elem_of_split. by apply requested_split in Hnil.
Qed.

(** X13. Every chunk request [putFile] sends is well formed and comes
    after the tree: whatever the collaborators answer and however the
    workers are scheduled, a request for a chunk is sent only after the
    tree built over the chunk digests was sent and the gateway accepted
    it; the request names the root of that tree, carries the index of a
    chunk of the file together with the bytes of that chunk and the tagged
    digest of these very bytes, and is made for the bucket and the owner of
    the client. *)
Theorem putFile_chunk_requests (W : World) (client : StorageClient)
    (schedule : list nat) (onProgress : bool) (path : string) (file : Blob)
    (pre post : list event) (blob_hash chunk_hash : string) (index : nat)
    (data : list byte) (bucket_name owner_name : string) :
  (putFile W client schedule onProgress path file).1
    = pre ++ EvPutChunk blob_hash chunk_hash index data bucket_name owner_name :: post →
  ∃ hs t status out,
    build (subtle_digest W) hs = Returned t
    ∧ put_blob_tree W (toJSON t) (bucket client) (size file) (owner client) = Ok status
    ∧ EvPutBlobTree (toJSON t) (bucket client) (size file) (owner client) ∈ pre
    ∧ blob_hash = toShaString (hash (tree t))
    ∧ createFileChunks file defaultChunkSize !! index = Some data
    ∧ subtle_digest W data = Returned out
    ∧ hs !! index = Some {| bytes := out |}
    ∧ chunk_hash = toShaString {| bytes := out |}
    ∧ bucket_name = bucket client ∧ owner_name = owner client.
Proof.
  intros E.
  destruct (putFile_trace W client schedule onProgress path file)
    as [[Hnone _]|(hs & t & status & tail & Hpath & Hh & Hb & Hput & Htail & _ & Hev)].
  { rewrite E in Hnone. by apply requested_split in Hnone. }
  cbv zeta in Hev. rewrite E in Hev.
  set (chunks := createFileChunks file defaultChunkSize) in *.
  set (p := pool_run W client chunks hs (hash (tree t)) onProgress schedule
              (pool_init chunks)) in *.
  assert (EvPutChunk blob_hash chunk_hash index data bucket_name owner_name ∈ log p)
    as Hin.
  { assert (EvPutChunk blob_hash chunk_hash index data bucket_name owner_name
            ∈ pre ++ EvPutChunk blob_hash chunk_hash index data bucket_name owner_name
                     :: post) as Hin by (apply elem_of_app; right; left).
    rewrite Hev in Hin.
    apply elem_of_cons in Hin as [?|Hin]; [done|].
    apply elem_of_cons in Hin as [?|Hin]; [done|].
    apply elem_of_app in Hin as [?|Hin]; [done|].
    by apply elem_of_requested_nil in Hin. }
  pose proof (pool_run_requests_ok W client chunks hs (hash (tree t)) onProgress schedule)
    as Hok.
  rewrite Forall_forall in Hok. apply Hok in Hin.
  destruct Hin as (-> & Hdata & (h & Hhash & ->) & -> & ->).
  destruct (hash_chunks_Returned W chunks 0 hs Hh) as [_ Hk].
  destruct (Hk index data Hdata) as (_ & out & Hout & _ & Hhs).
  assert (h = {| bytes := out |}) as -> by congruence.
  exists hs, t, status, out. do 2 (split; [done|]). split; [|done].
  destruct pre as [|e1 [|e2 pre]]; [done | by injection Hev | ].
  injection Hev as _ -> _. right. left.
Qed.

Lemma putFile_chunk_requests_witness :
  let events := (putFile (sample_world []) sample_client (round_robin 2) true "cat.png"
                   (TextEncoder_encode "hello")).1 in
  let h := "sha256:2cf24dba5fb0a30e26e83b2ac5b9e29e1b161e5c1fa7425e73043362938b9824" in
  events = take 2 events
           ++ EvPutChunk h h 0 (TextEncoder_encode "hello") "images" "owner-1"
           :: drop 3 events
  ∧ ∃ out, crypto_digest (TextEncoder_encode "hello") = Returned out
           ∧ h = toShaString {| bytes := out |}.
Proof.
  intros events h.
  assert (events = take 2 events
                   ++ EvPutChunk h h 0 (TextEncoder_encode "hello") "images" "owner-1"
                   :: drop 3 events) as E by (vm_compute; reflexivity).
  split; [exact E|].
  destruct (putFile_chunk_requests (sample_world []) sample_client (round_robin 2) true
              "cat.png" (TextEncoder_encode "hello") _ _ _ _ _ _ _ _ E)
    as (hs & t & status & out & _ & _ & _ & _ & _ & Hout & _ & Hch & _).
  exists out. split; [exact Hout | exact Hch].
Defined.

(** X14. What [putFile] returns. When it returns, the path was not empty
    and the result carries that path, the tagged root digest of the tree
    built over the digests of the chunks of the file, and the URL made from
    the gateway URL, the digest the registry holds for the path (not the
    digest just computed) and the owner, both passed through
    [encodeURIComponent]. Every chunk was requested and acknowledged once,
    none failed, the reference was registered once, under that path and
    digest, and the registry was then asked for the path. *)
Theorem putFile_result (W : World) (client : StorageClient)
    (schedule : list nat) (onProgress : bool) (path : string) (file : Blob)
    (events : list event) (res : PutFileResult) :
  putFile W client schedule onProgress path file = (events, Returned res) →
  let chunks := createFileChunks file defaultChunkSize in
  path ≠ ""
  ∧ ∃ hs t fr,
      hash_chunks W 0 chunks = Returned hs
      ∧ build (subtle_digest W) hs = Returned t
      ∧ registerFileReference W path (toShaString (hash (tree t))) = Returned tt
      ∧ getFileReference W path = Returned fr
      ∧ res = {| path := path;
                 hash_string := toShaString (hash (tree t));
                 url := storageGatewayUrl client +:+ "/blob?blob_hash=" +:+
                        encodeURIComponent W (ref_hash fr) +:+ "&owner_id=" +:+
                        encodeURIComponent W (owner client) |}
      ∧ requested events ≡ₚ seq 0 (length chunks)
      ∧ stored events ≡ₚ seq 0 (length chunks)
      ∧ failed events = []
      ∧ registered events = [(path, toShaString (hash (tree t)))]
      ∧ last events = Some (EvGetFileReference path).
Proof.
  intros E chunks.
  destruct (putFile_trace W client schedule onProgress path file)
    as [[_ Hnot]|(hs & t & status & tail & Hpath & Hh & Hb & Hput & Htail & Hres & Hev)].
  { rewrite E in Hnot. by destruct (Hnot res). }
  cbv zeta in Hres, Hev. fold chunks in Hh, Hres, Hev. rewrite E in Hres, Hev.
  cbn [fst snd] in Hres, Hev.
  set (p := pool_run W client chunks hs (hash (tree t)) onProgress schedule
              (pool_init chunks)) in *.
  destruct (Hres res eq_refl) as (Hrej & Hall & Hreg & -> & fr & Hget & ->).
  assert (pool_inv (length chunks) onProgress p) as Hinv
    by apply pool_run_inv, pool_init_inv.
  destruct (all_resolved_complete _ _ _ Hinv Hall) as [Hreq Hsto].
  destruct (inv_only_chunk_events _ _ _ Hinv) as [Hlp _].
  pose proof (proj1 (inv_rejection _ _ _ Hinv) Hrej) as Hfailed.
  split; [done|]. exists hs, t, fr. do 5 (split; [done|]).
  rewrite Hev.
  change (EvBuild hs :: ?a :: ?l) with ([EvBuild hs; a] ++ l).
  read_events. rewrite Hfailed, Hlp.
  do 4 (split; [done|]).
  rewrite !app_assoc.
  change [EvRegister ?a ?b; ?c] with ([EvRegister a b] ++ [c]).
  rewrite app_assoc. apply last_snoc.
Qed.

Lemma putFile_result_witness :
  ∃ events res,
    putFile (sample_world []) sample_client (round_robin 2) true "cat.png"
      (TextEncoder_encode "hello") = (events, Returned res)
    ∧ res = {| path := "cat.png";
               hash_string :=
                 "sha256:2cf24dba5fb0a30e26e83b2ac5b9e29e1b161e5c1fa7425e73043362938b9824";
               url := "https://gateway.example/blob?blob_hash=sha256:00&owner_id=owner-1" |}
    ∧ registered events = [("cat.png", hash_string res)]
    ∧ last events = Some (EvGetFileReference "cat.png").
Proof.
  destruct (putFile (sample_world []) sample_client (round_robin 2) true "cat.png"
              (TextEncoder_encode "hello")) as [events [res|e|]] eqn:E;
    [|exfalso; revert E; vm_compute; discriminate..].
  exists events, res. split; [done|].
  assert (res = {| path := "cat.png";
                   hash_string :=
                     "sha256:2cf24dba5fb0a30e26e83b2ac5b9e29e1b161e5c1fa7425e73043362938b9824";
                   url := "https://gateway.example/blob?blob_hash=sha256:00&owner_id=owner-1" |})
    as Hres by (revert E; vm_compute; by intros [= _ <-]).
  split; [exact Hres|].
  destruct (putFile_result (sample_world []) sample_client (round_robin 2) true "cat.png"
              (TextEncoder_encode "hello") events res E)
    as (_ & hs & t & fr & _ & _ & _ & _ & Hr & _ & _ & _ & Hreg & Hlast).
  split; [|exact Hlast]. rewrite Hreg, Hr. reflexivity.
Defined.




(** ** The quadtree *)

Section QuadtreeFacts.

Import Quadtree.
Local Open Scope Z_scope.

Ltac bool_facts :=
  repeat match goal with
  | H : _ || _ = false |- _ => apply orb_false_elim in H as [? ?]
  | H : _ && _ = true |- _ => apply andb_prop in H as [? ?]
  | H : _ && _ = false |- _ => apply andb_false_iff in H
  | H : negb _ = true |- _ => apply negb_true_iff in H
  | H : negb _ = false |- _ => apply negb_false_iff in H
  | H : (_ <=? _) = true |- _ => apply Z.leb_le in H
  | H : (_ <=? _) = false |- _ => apply Z.leb_gt in H
  | H : (_ <? _) = true |- _ => apply Z.ltb_lt in H
  | H : (_ <? _) = false |- _ => apply Z.ltb_ge in H
  | H : (_ =? _) = true |- _ => apply Z.eqb_eq in H
  | H : (_ =? _) = false |- _ => apply Z.eqb_neq in H
  end.

Lemma leaf_built_ok imageData cellShape minSize maxDepth x y w h currentDepth :
  built_ok imageData cellShape minSize maxDepth x y w h currentDepth
    {| x := x; y := y; width := w; height := h;
       color := getAverageColor imageData x y w h; children := None |}.
Proof.
  split; [done|]. split.
  { cbn. unfold node_ok, split_ok. cbn. repeat split; try done; by intros [? ?]. }
  split; [cbn; lia|]. split.
  - intros px py. cbn [leaves children]. rewrite filter_cons, filter_nil.
    by destruct (covers _ px py).
  - intros n. cbn [nodes children]. rewrite list_elem_of_singleton. intros ->.
    cbn [width height]. lia.
Qed.

Lemma cell_eq t x0 y0 w h :
  cell t = (x0, y0, w, h) → x t = x0 ∧ y t = y0 ∧ width t = w ∧ height t = h.
Proof. unfold cell. by intros [= -> -> -> ->]. Qed.

Ltac child_cells :=
  repeat match goal with
  | H : built_ok _ _ _ _ _ _ _ _ _ ?c |- _ =>
      let Hcell := fresh "Hcell" in
      let Hall := fresh "Hall" in
      let Hdepth := fresh "Hdepth" in
      let Htile := fresh "Htile" in
      let Hsize := fresh "Hsize" in
      destruct H as (Hcell & Hall & Hdepth & Htile & Hsize);
      pose proof (cell_eq _ _ _ _ _ Hcell) as (? & ? & ? & ?)
  end.

(** The steps of the proof below that the three ways of cutting a cell
    have in common. *)
Ltac node_is_ok :=
  cbn [all_nodes children foldr]; split; [|done];
  unfold node_ok, split_ok, cell; cbn [x y width height color children];
  split; [done|]; split; [|by intros _];
  do 2 (split; [done|]).

Ltac leaves_tile :=
  intros px py; cbn [leaves children fmap list_fmap mjoin list_join];
  rewrite !filter_app, !length_app, filter_nil;
  repeat match goal with H : ∀ px py, length _ = _ |- _ => rewrite H; clear H end;
  unfold covers; cbn [x y width height]; cbn [length];
  repeat match goal with H : _ = _ |- _ => rewrite H; clear H end;
  repeat case_bool_decide; lia.

Ltac cells_are_large :=
  intros n; cbn [nodes children fmap list_fmap mjoin list_join];
  rewrite elem_of_cons, !elem_of_app; unfold least_size in *;
  intros Hn;
  repeat match type of Hn with _ ∨ _ => destruct Hn as [Hn|Hn] end;
  [subst n; cbn [width height]; lia | .. | by apply elem_of_nil in Hn];
  match goal with H : ∀ n, n ∈ nodes ?c → _ |- _ =>
    match type of Hn with _ ∈ nodes c => apply H in Hn end end; lia.

Lemma buildQuadtree_fuel_ok imageData cellShape minSize maxDepth fuel :
  ∀ x y w h currentDepth,
    Z.max 0 (maxDepth - currentDepth) < Z.of_nat fuel →
    ∃ t, buildQuadtree_fuel fuel imageData x y w h minSize maxDepth currentDepth
           cellShape = Returned t
         ∧ built_ok imageData cellShape minSize maxDepth x y w h currentDepth t.
Proof.
  induction fuel as [|fuel IH]; intros x0 y0 w h currentDepth Hfuel; [lia|].
  cbn [buildQuadtree_fuel].
  destruct (_ || _ || _ || _) eqn:Htest.
  { eexists. split; [done | apply leaf_built_ok]. }
  bool_facts.
  assert (Z.max 0 (maxDepth - (currentDepth + 1)) < Z.of_nat fuel) as Hnext by lia.
  destruct cellShape.
  - (* four quadrants *)
    destruct (IH x0 y0 (w / 2) (h / 2) _ Hnext) as (c1 & -> & Hc1).
    destruct (IH (x0 + w / 2) y0 (w - w / 2) (h / 2) _ Hnext) as (c2 & -> & Hc2).
    destruct (IH x0 (y0 + h / 2) (w / 2) (h - h / 2) _ Hnext) as (c3 & -> & Hc3).
    destruct (IH (x0 + w / 2) (y0 + h / 2) (w - w / 2) (h - h / 2) _ Hnext)
      as (c4 & -> & Hc4).
    cbn [mbind outcome_bind]. eexists. split; [done|]. child_cells.
    split; [done|]. split; [|split; [|split]].
    + node_is_ok. cbn [fmap list_fmap]. unfold cell. congruence.
    + cbn [depth children fmap list_fmap foldr]. lia.
    + leaves_tile.
    + cells_are_large.
  - (* two halves, or a leaf *)
    destruct ((Z.rem currentDepth 2 =? 0) && (minSize * 2 <? h)) eqn:Hhor.
    { bool_facts.
      destruct (IH x0 y0 w (h / 2) _ Hnext) as (c1 & -> & Hc1).
      destruct (IH x0 (y0 + h / 2) w (h - h / 2) _ Hnext) as (c2 & -> & Hc2).
      cbn [mbind outcome_bind]. eexists. split; [done|]. child_cells.
      split; [done|]. split; [|split; [|split]].
      + node_is_ok. left. do 2 (split; [done|]).
        cbn [fmap list_fmap]. unfold cell. congruence.
      + cbn [depth children fmap list_fmap foldr]. lia.
      + leaves_tile.
      + cells_are_large. }
    destruct (negb (Z.rem currentDepth 2 =? 0) && (minSize * 2 <? w)) eqn:Hver.
    { bool_facts.
      destruct (IH x0 y0 (w / 2) h _ Hnext) as (c1 & -> & Hc1).
      destruct (IH (x0 + w / 2) y0 (w - w / 2) h _ Hnext) as (c2 & -> & Hc2).
      cbn [mbind outcome_bind]. eexists. split; [done|]. child_cells.
      split; [done|]. split; [|split; [|split]].
      + node_is_ok. right. do 2 (split; [done|]).
        cbn [fmap list_fmap]. unfold cell. congruence.
      + cbn [depth children fmap list_fmap foldr]. lia.
      + leaves_tile.
      + cells_are_large. }
    eexists. split; [done | apply leaf_built_ok].
Qed.

(** [buildQuadtree] returns, and what it returns is as [built_ok] says. *)
Lemma buildQuadtree_ok imageData x y w h minSize maxDepth currentDepth cellShape :
  ∃ t, buildQuadtree imageData x y w h minSize maxDepth currentDepth cellShape
       = Returned t
       ∧ built_ok imageData cellShape minSize maxDepth x y w h currentDepth t.
Proof. apply buildQuadtree_fuel_ok. lia. Qed.

(** X16. [buildQuadtree] returns, whatever it is given, and the leaves of
    the tree it returns tile the cell it was given: the root has that
    cell, and every pixel of the cell lies in exactly one leaf, every other
    pixel in none. So drawing the leaves paints every pixel of the canvas
    once. *)
Theorem buildQuadtree_tiles (imageData : ImageData)
    (x y width height minSize maxDepth currentDepth : Z) (cellShape : CellShape) :
  ∃ t, buildQuadtree imageData x y width height minSize maxDepth currentDepth cellShape
       = Returned t
       ∧ cell t = (x, y, width, height)
       ∧ ∀ px py,
           length (filter (λ c, covers c px py) (leaves t))
           = if bool_decide (x ≤ px < x + width ∧ y ≤ py < y + height)
             then 1%nat else 0%nat.
Proof.
  destruct (buildQuadtree_ok imageData x y width height minSize maxDepth currentDepth
              cellShape) as (t & Ht & Hcell & _ & _ & Htile & _).
  exists t. do 2 (split; [done|]). intros px py. rewrite Htile. unfold covers.
  by destruct (cell_eq _ _ _ _ _ Hcell) as (-> & -> & -> & ->).
Qed.

(** X17. The shape of the tree [buildQuadtree] returns. Every node, inner
    nodes too, carries the average colour of its own cell. A node has
    children only below the maximal depth, when its cell is wider and
    higher than [minSize] and the variance of its colours is not below
    1000; the children are then the four quadrants cut at
    [Math.floor(width / 2)] and [Math.floor(height / 2)] for the shape
    [square], and for [rectangle] the two halves cut across at even depths
    (when the height is more than twice [minSize]) and lengthwise at odd
    depths (when the width is). The tree is no deeper than the distance
    from the current depth to the maximal depth, and it is a single leaf
    when there is none, or when the cell is not larger than [minSize]. *)
Theorem buildQuadtree_shape (imageData : ImageData)
    (x y width height minSize maxDepth currentDepth : Z) (cellShape : CellShape) :
  ∃ t, buildQuadtree imageData x y width height minSize maxDepth currentDepth cellShape
       = Returned t
       ∧ all_nodes (node_ok imageData cellShape minSize maxDepth) currentDepth t
       ∧ (depth t ≤ Z.to_nat (maxDepth - currentDepth))%nat
       ∧ (maxDepth ≤ currentDepth ∨ width ≤ minSize ∨ height ≤ minSize →
          children t = None).
Proof.
  destruct (buildQuadtree_ok imageData x y width height minSize maxDepth currentDepth
              cellShape) as (t & Ht & Hcell & Hall & Hdepth & _ & _).
  exists t. do 3 (split; [done|]). intros Hsmall.
  destruct (children t) as [cs|] eqn:Hcs; [exfalso|done].
  destruct t as [tx ty tw th tc tcs]. cbn in Hcs. subst tcs.
  cbn [all_nodes children] in Hall. destruct Hall as [(_ & Hsplit & Hinner) _].
  unfold cell in Hcell. cbn in Hcell, Hsplit, Hinner. injection Hcell as -> -> -> ->.
  destruct (Hinner ltac:(by eexists)) as [Hd _].
  unfold split_ok in Hsplit. cbn in Hsplit. lia.
Qed.

(** X18. No cell is smaller than the rule for cutting allows. A cell is
    cut only when it is larger than [minSize], so every cell of the tree is
    at least as wide (and as high) as the lesser of the root cell and
    [Math.floor((minSize + 1) / 2)] for the shape [square], and of the root
    cell and [minSize] for [rectangle]. With [minSize] at least 1 and a
    root cell that is not empty, no cell of the tree is empty. *)
Theorem buildQuadtree_least_size (imageData : ImageData)
    (x y width height minSize maxDepth currentDepth : Z) (cellShape : CellShape)
    (t n : QuadNode) :
  buildQuadtree imageData x y width height minSize maxDepth currentDepth cellShape
    = Returned t →
  n ∈ nodes t →
  Z.min width (least_size cellShape minSize) ≤ Quadtree.width n
  ∧ Z.min height (least_size cellShape minSize) ≤ Quadtree.height n
  ∧ (1 ≤ minSize → 1 ≤ width → 1 ≤ height →
     1 ≤ Quadtree.width n ∧ 1 ≤ Quadtree.height n).
Proof.
  intros Ht Hn.
  destruct (buildQuadtree_ok imageData x y width height minSize maxDepth currentDepth
              cellShape) as (t' & Ht' & _ & _ & _ & _ & Hsize).
  assert (t' = t) as -> by congruence.
  destruct (Hsize n Hn) as [Hw Hh]. do 2 (split; [done|]).
  intros Hmin Hwidth Hheight. unfold least_size in *. destruct cellShape; lia.
Qed.

Lemma buildQuadtree_least_size_witness :
  ∃ t, buildQuadtree (checkerboard 4) 0 0 4 4 1 6 0 square = Returned t
       ∧ length (nodes t) = 21%nat
       ∧ ∀ n, n ∈ nodes t → 1 ≤ Quadtree.width n ∧ 1 ≤ Quadtree.height n.
Proof.
  destruct (buildQuadtree (checkerboard 4) 0 0 4 4 1 6 0 square) as [t| |] eqn:Ht;
    [|exfalso; revert Ht; vm_compute; discriminate..].
  exists t. split; [done|]. split.
  - revert Ht. vm_compute. by intros [= <-].
  - intros n Hn.
    by apply (buildQuadtree_least_size (checkerboard 4) 0 0 4 4 1 6 0 square t n Ht Hn).
Defined.

(** With [minSize] 0 a cell of one pixel in height is cut into a cell of
    no height and the cell itself: the tree has empty cells. *)
Example buildQuadtree_empty_cells :
  ∃ t, buildQuadtree (checkerboard 2) 0 0 2 1 0 1 0 square = Returned t
       ∧ cell <$> nodes t
         = [(0, 0, 2, 1); (0, 0, 1, 0); (1, 0, 1, 0); (0, 0, 1, 1); (1, 0, 1, 1)].
Proof. eexists. split; vm_compute; reflexivity. Qed.

Lemma elem_of_pixels x0 y0 w h px py :
  (px, py) ∈ pixels x0 y0 w h ↔ x0 ≤ px < x0 + w ∧ y0 ≤ py < y0 + h.
Proof.
  unfold pixels. rewrite list_elem_of_bind. split.
  - intros (py' & (px' & Hin & Hpx)%list_elem_of_bind & Hpy).
    apply list_elem_of_singleton in Hin as [= -> ->].
    apply elem_of_seqZ in Hpx, Hpy. lia.
  - intros [Hpx Hpy]. exists py. split; [|apply elem_of_seqZ; lia].
    apply list_elem_of_bind. exists px. split; [by left | apply elem_of_seqZ; lia].
Qed.

(** A loop that leaves the accumulator as it is at every element. *)
Lemma foldl_unchanged {A B} (f : A → B → A) (a : A) (l : list B) :
  (∀ b, b ∈ l → f a b = a) → foldl f a l = a.
Proof.
  induction l as [|b l IH]; intros Hf; [done|]. cbn [foldl].
  rewrite Hf by left. apply IH. intros b' Hb'. apply Hf. by right.
Qed.

(** X19. A cell without a pixel of the image (an empty cell, a cell
    beside the image, an image of no width): the two loops add nothing, so
    the average colour is [0, 0, 0] and not the NaN of a division by zero,
    the variance is 0, and [buildQuadtree] makes the cell a single black
    leaf, whatever the depths, the sizes and the shape. *)
Theorem buildQuadtree_outside_image (imageData : ImageData)
    (x y width height minSize maxDepth currentDepth : Z) (cellShape : CellShape)
    (avgColor : Color) :
  (∀ px py, x ≤ px < x + width → y ≤ py < y + height →
            in_image imageData px py = false) →
  getAverageColor imageData x y width height
    = (number_of_Z 0, number_of_Z 0, number_of_Z 0)
  ∧ getColorVariance imageData x y width height avgColor = number_of_Z 0
  ∧ buildQuadtree imageData x y width height minSize maxDepth currentDepth cellShape
    = Returned {| x := x; y := y; width := width; height := height;
                  color := (number_of_Z 0, number_of_Z 0, number_of_Z 0);
                  children := None |}.
Proof.
  intros Hout.
  assert (getAverageColor imageData x y width height
          = (number_of_Z 0, number_of_Z 0, number_of_Z 0)) as Havg.
  { unfold getAverageColor. rewrite foldl_unchanged; [done|].
    intros [px py] [Hx Hy]%elem_of_pixels. by rewrite Hout. }
  assert (∀ c, getColorVariance imageData x y width height c = number_of_Z 0) as Hvar.
  { intros c. unfold getColorVariance. rewrite foldl_unchanged; [done|].
    intros [px py] [Hx Hy]%elem_of_pixels. by rewrite Hout. }
  do 2 (split; [done|]).
  unfold buildQuadtree. cbn [buildQuadtree_fuel]. rewrite Havg, Hvar.
  change (number_lt (number_of_Z 0) (number_of_Z 1000)) with true.
  by rewrite orb_true_r.
Qed.

Lemma buildQuadtree_outside_image_witness :
  getAverageColor (checkerboard 2) 2 0 3 3 = (number_of_Z 0, number_of_Z 0, number_of_Z 0)
  ∧ buildQuadtree (checkerboard 2) 2 0 3 3 1 6 0 rectangle
    = Returned {| x := 2; y := 0; width := 3; height := 3;
                  color := (number_of_Z 0, number_of_Z 0, number_of_Z 0);
                  children := None |}.
Proof.
  destruct (buildQuadtree_outside_image (checkerboard 2) 2 0 3 3 1 6 0 rectangle
              (NaN, NaN, NaN)) as (Havg & _ & Ht); [|by split].
  intros px py Hx Hy. unfold in_image. cbn [checkerboard image_width image_height].
  apply andb_false_iff. left. apply andb_false_iff. left.
  apply andb_false_iff. right. apply Z.ltb_ge. lia.
Defined.

End QuadtreeFacts.
